(** * Jeevan Setu: the emergency dispatch coordinator

    A shallow embedding of the socket.io coordinator of the backend server
    (the [io.on('connection', ...)] handlers, [broadcastToAvailableDrivers]
    and the in-memory [state]), with the properties of its request life
    cycle.

    The server runs on a single-threaded event loop: every handler runs to
    completion, so a handler is a function from the state before the event
    to the state after it and the list of messages it emits. *)

From Stdlib Require Import PrimFloat.
From stdpp Require Import base decidable option list strings.

Set Default Proof Using "Type".
#[local] Set Warnings "-inexact-float".
Open Scope string_scope.

(** ** JavaScript [Map]

    [state.drivers], [state.emergencies] and [state.hospitals] are ES6
    [Map]s.  A [Map] iterates in insertion order, [set] on a key that is
    present keeps the position of the key, and [delete] removes the key. *)

Module JsMap.
Section js_map.
Context {K V : Type} `{EqDecision K}.

Fixpoint get (k : K) (m : list (K * V)) : option V :=
  match m with
  | [] => None
  | (k', v) :: m' => if decide (k' = k) then Some v else get k m'
  end.

Definition has (k : K) (m : list (K * V)) : bool :=
  match get k m with Some _ => true | None => false end.

Fixpoint set (k : K) (v : V) (m : list (K * V)) : list (K * V) :=
  match m with
  | [] => [(k, v)]
  | (k', v') :: m' =>
      if decide (k' = k) then (k, v) :: m' else (k', v') :: set k v m'
  end.

Fixpoint delete (k : K) (m : list (K * V)) : list (K * V) :=
  match m with
  | [] => []
  | (k', v') :: m' =>
      if decide (k' = k) then delete k m' else (k', v') :: delete k m'
  end.

End js_map.
End JsMap.

(** ** Data model *)

Definition SocketId := string.
(** Addresses in the store of driver objects. *)
Abbreviation loc := nat (only parsing).

(** A [{lat, lng}] point with the optional [address] that the default
    request location carries.  Coordinates are IEEE-754 doubles, as every
    JavaScript number. *)
Record Location := mkLocation {
  lat : float;
  lng : float;
  address : option string
}.

Inductive DriverStatus := Available | Busy.

Inductive EmergencyStatus := Searching | Accepted | Cancelled.

#[global] Instance DriverStatus_eq_dec : EqDecision DriverStatus.
Proof. solve_decision. Defined.

#[global] Instance EmergencyStatus_eq_dec : EqDecision EmergencyStatus.
Proof. solve_decision. Defined.

(** The object built by [driver:register]. *)
Record Driver := mkDriver {
  d_id : string;
  d_socketId : SocketId;
  d_name : string;
  d_vehicle : string;
  d_location : Location;
  d_status : DriverStatus
}.

(** The object built by [patient:sos].  [assignedDriver] is a reference to
    a driver object: [emergency.assignedDriver = driver] stores the very
    object that [state.drivers] holds, so it is an address in the store of
    driver objects ([None] is JavaScript's [null]). *)
Record Emergency := mkEmergency {
  e_id : string;
  patientSocketId : SocketId;
  e_location : Location;
  severity : string;
  e_type : string;
  e_status : EmergencyStatus;
  timestamp : Z;
  assignedDriver : option loc
}.

(** The object built by [hospital:register]; [hospital:update-beds] stores
    whatever [data.beds] and [data.icu] are, [None] being [undefined]. *)
Record Hospital := mkHospital {
  h_id : string;
  h_socketId : SocketId;
  h_name : string;
  beds : option Z;
  icu : option Z;
  h_location : Location
}.

(** The in-memory [state].  Driver objects are shared between
    [state.drivers] and the [assignedDriver] field of emergencies, and are
    mutated in place ([driver.status = ...], [driver.location = ...]); they
    live in [heap], addressed by position, and [drivers] maps a socket id
    to the address of its driver object.  Emergency and hospital objects
    are reachable from their map only and are kept in it by value. *)
Record State := mkState {
  drivers : list (SocketId * loc);
  emergencies : list (string * Emergency);
  hospitals : list (SocketId * Hospital);
  heap : list Driver
}.

Definition initial_state : State :=
  {| drivers := []; emergencies := []; hospitals := []; heap := [] |}.

(** ** Wire protocol *)

(** Payloads of the client events.  A field is [None] when the client left
    it out. *)
Record DriverRegisterData := mkDriverRegisterData {
  rd_name : option string;
  rd_vehicle : option string;
  rd_location : option Location
}.

Record SosData := mkSosData {
  sd_location : option Location;
  sd_severity : option string;
  sd_type : option string
}.

Record HospitalRegisterData := mkHospitalRegisterData {
  hd_name : option string;
  hd_beds : option Z;
  hd_icu : option Z;
  hd_location : option Location
}.

Record UpdateBedsData := mkUpdateBedsData {
  ub_beds : option Z;
  ub_icu : option Z
}.

(** The [distance] field of an offer is the string
    [calculateDistance(driver.location, emergency.location)]: a haversine
    computation in double-precision trigonometry, printed by [toFixed(1)].
    The coordinator only forwards it; the field records the two arguments
    of the call. *)
Inductive Distance :=
  | calculateDistance (loc1 loc2 : Location).

(** Server-to-client events, one constructor per event name. *)
Inductive Payload :=
  | driver_registered (success : bool) (driver : Driver)
  | emergency_driver_assigned (emergencyId name vehicle eta : string)
  | driver_assignment_confirmed
      (emergencyId : string) (emergency : Emergency) (assigned : Driver)
  | hospital_incoming_patient (emergencyId sev eta driver : string)
  | emergency_new_request
      (emergencyId : string) (location : Location) (sev type : string)
      (distance : Distance)
  | emergency_no_drivers (emergencyId : string)
  | emergency_created (emergencyId : string) (status : EmergencyStatus)
  | emergency_cancelled (emergencyId : string)
  | hospital_registered (success : bool) (hospital : Hospital).

(** [socket.emit(...)] and [io.to(socketId).emit(...)]: a payload addressed
    to one socket id. *)
Record Emit := mkEmit {
  target : SocketId;
  payload : Payload
}.

(** ** JavaScript [||] on the fields of a payload *)

(** [s || d] on a string field: [undefined] and the empty string are
    falsy. *)
Definition or_string (o : option string) (d : string) : string :=
  match o with
  | Some s => if decide (s = "") then d else s
  | None => d
  end.

(** [n || d] on a number field: [undefined] and [0] are falsy. *)
Definition or_number (o : option Z) (d : Z) : Z :=
  match o with
  | Some n => if decide (n = 0%Z) then d else n
  | None => d
  end.

(** [l || d] on an object field: every object is truthy. *)
Definition or_location (o : option Location) (d : Location) : Location :=
  match o with
  | Some l => l
  | None => d
  end.

Definition mumbai : Location :=
  {| lat := 19.076%float; lng := 72.8777%float; address := None |}.

Definition unknown_location : Location :=
  {| lat := 19.076%float; lng := 72.8777%float;
     address := Some "Unknown Location" |}.

Definition default_hospital_location : Location :=
  {| lat := 19.08%float; lng := 72.88%float; address := None |}.

(** ** Field updates *)

Definition set_d_status (s : DriverStatus) (d : Driver) : Driver :=
  {| d_id := d_id d; d_socketId := d_socketId d; d_name := d_name d;
     d_vehicle := d_vehicle d; d_location := d_location d; d_status := s |}.

Definition set_d_location (l : Location) (d : Driver) : Driver :=
  {| d_id := d_id d; d_socketId := d_socketId d; d_name := d_name d;
     d_vehicle := d_vehicle d; d_location := l; d_status := d_status d |}.

Definition set_e_status (s : EmergencyStatus) (e : Emergency) : Emergency :=
  {| e_id := e_id e; patientSocketId := patientSocketId e;
     e_location := e_location e; severity := severity e; e_type := e_type e;
     e_status := s; timestamp := timestamp e;
     assignedDriver := assignedDriver e |}.

Definition set_assignedDriver (a : option loc) (e : Emergency) : Emergency :=
  {| e_id := e_id e; patientSocketId := patientSocketId e;
     e_location := e_location e; severity := severity e; e_type := e_type e;
     e_status := e_status e; timestamp := timestamp e; assignedDriver := a |}.

Definition set_beds (b i : option Z) (h : Hospital) : Hospital :=
  {| h_id := h_id h; h_socketId := h_socketId h; h_name := h_name h;
     beds := b; icu := i; h_location := h_location h |}.

Definition set_drivers (m : list (SocketId * loc)) (st : State) : State :=
  {| drivers := m; emergencies := emergencies st;
     hospitals := hospitals st; heap := heap st |}.

Definition set_emergencies (m : list (string * Emergency)) (st : State)
  : State :=
  {| drivers := drivers st; emergencies := m;
     hospitals := hospitals st; heap := heap st |}.

Definition set_hospitals (m : list (SocketId * Hospital)) (st : State)
  : State :=
  {| drivers := drivers st; emergencies := emergencies st;
     hospitals := m; heap := heap st |}.

Definition set_heap (h : list Driver) (st : State) : State :=
  {| drivers := drivers st; emergencies := emergencies st;
     hospitals := hospitals st; heap := h |}.

(** [state.drivers.get(socketId)]: the address of the driver object and
    the object itself, or [None] for [undefined].  An address outside the
    store does not occur in JavaScript ([wf_state] below rules it out); it
    reads as [undefined]. *)
Definition driver_of (st : State) (socketId : SocketId)
  : option (loc * Driver) :=
  match JsMap.get socketId (drivers st) with
  | Some l =>
      match heap st !! l with
      | Some driver => Some (l, driver)
      | None => None
      end
  | None => None
  end.

(** ** Helper functions *)

(** The [emergency:new-request] that [broadcastToAvailableDrivers] sends for
    [emergency] to the [driver] registered under [socketId]. *)
Definition offer (socketId : SocketId) (driver : Driver)
    (emergency : Emergency) : Emit :=
  {| target := socketId;
     payload := emergency_new_request (e_id emergency) (e_location emergency)
       (severity emergency) (e_type emergency)
       (calculateDistance (d_location driver) (e_location emergency)) |}.

(** The [forEach] of [broadcastToAvailableDrivers]: one [emergency:new-request]
    per entry of [state.drivers] whose driver is [available], in the order
    of the map. *)
Fixpoint offers (h : list Driver) (emergency : Emergency)
    (ds : list (SocketId * loc)) : list Emit :=
  match ds with
  | [] => []
  | (socketId, l) :: ds' =>
      match h !! l with
      | Some driver =>
          if decide (d_status driver = Available) then
            offer socketId driver emergency :: offers h emergency ds'
          else offers h emergency ds'
      | None => offers h emergency ds'
      end
  end.

Definition broadcastToAvailableDrivers (st : State) (emergency : Emergency)
  : list Emit :=
  let sent := offers (heap st) emergency (drivers st) in
  let notified := length sent in
  if decide (notified = 0) then
    sent ++ [ {| target := patientSocketId emergency;
                 payload := emergency_no_drivers (e_id emergency) |} ]
  else sent.

(** ** Socket handlers

    Each handler takes the id of the socket the event arrived on
    ([socket.id]), the payload of the event, and whatever the handler
    draws from the environment ([uuidv4()], [Date.now()]). *)

(** [socket.on('driver:register', ...)]: a new driver object replaces
    whatever the socket had registered. *)
Definition driver_register (socket : SocketId) (data : DriverRegisterData)
    (uuid : string) (st : State) : State * list Emit :=
  let driver :=
    {| d_id := uuid;
       d_socketId := socket;
       d_name := or_string (rd_name data) "Unknown Driver";
       d_vehicle := or_string (rd_vehicle data) "MH-XX-XXXX";
       d_location := or_location (rd_location data) mumbai;
       d_status := Available |} in
  let l := length (heap st) in
  (set_drivers (JsMap.set socket l (drivers st))
     (set_heap (heap st ++ [driver]) st),
   [ {| target := socket; payload := driver_registered true driver |} ]).

(** [socket.on('driver:update-location', ...)] *)
Definition driver_update_location (socket : SocketId) (location : Location)
    (st : State) : State * list Emit :=
  match driver_of st socket with
  | Some (l, driver) =>
      (set_heap (<[l := set_d_location location driver]> (heap st)) st, [])
  | None => (st, [])
  end.

(** The guard of [driver:accept]:
    [driver && emergency && emergency.status === 'searching']. *)
Definition accept_guard (socket : SocketId) (emergencyId : string)
    (st : State) : option (loc * Driver * Emergency) :=
  match driver_of st socket, JsMap.get emergencyId (emergencies st) with
  | Some (l, driver), Some emergency =>
      if decide (e_status emergency = Searching)
      then Some (l, driver, emergency)
      else None
  | _, _ => None
  end.

(** The [forEach] over [state.hospitals] of [driver:accept]. *)
Definition notify_hospitals (emergencyId : string) (emergency : Emergency)
    (driver : Driver) (hs : list (SocketId * Hospital)) : list Emit :=
  map (fun h : SocketId * Hospital =>
         {| target := fst h;
            payload := hospital_incoming_patient emergencyId
              (severity emergency) "8 mins" (d_vehicle driver) |}) hs.

(** [socket.on('driver:accept', ...)] *)
Definition driver_accept (socket : SocketId) (emergencyId : string)
    (st : State) : State * list Emit :=
  match accept_guard socket emergencyId st with
  | Some (l, driver, emergency) =>
      let driver' := set_d_status Busy driver in
      let emergency' :=
        set_assignedDriver (Some l) (set_e_status Accepted emergency) in
      (set_emergencies
         (JsMap.set emergencyId emergency' (emergencies st))
         (set_heap (<[l := driver']> (heap st)) st),
       {| target := patientSocketId emergency;
          payload := emergency_driver_assigned emergencyId
            (d_name driver) (d_vehicle driver) "5 mins" |}
       :: {| target := socket;
             payload :=
               driver_assignment_confirmed emergencyId emergency' driver' |}
       :: notify_hospitals emergencyId emergency driver (hospitals st))
  | None => (st, [])
  end.

(** [socket.on('driver:reject', ...)] *)
Definition driver_reject (socket : SocketId) (emergencyId : string)
    (st : State) : State * list Emit :=
  match JsMap.get emergencyId (emergencies st) with
  | Some emergency => (st, broadcastToAvailableDrivers st emergency)
  | None => (st, [])
  end.

(** [socket.on('patient:sos', ...)] *)
Definition patient_sos (socket : SocketId) (data : SosData)
    (uuid : string) (now : Z) (st : State) : State * list Emit :=
  let emergencyId := uuid in
  let emergency :=
    {| e_id := emergencyId;
       patientSocketId := socket;
       e_location := or_location (sd_location data) unknown_location;
       severity := or_string (sd_severity data) "high";
       e_type := or_string (sd_type data) "accident";
       e_status := Searching;
       timestamp := now;
       assignedDriver := None |} in
  let st' :=
    set_emergencies (JsMap.set emergencyId emergency (emergencies st)) st in
  (st',
   {| target := socket;
      payload := emergency_created emergencyId Searching |}
   :: broadcastToAvailableDrivers st' emergency).

(** The body of [if (emergency.assignedDriver) { ... }] in
    [patient:cancel]: the socket of the assigned driver object is told, and
    the driver object that [state.drivers] holds for that socket, if any,
    becomes [available]. *)
Definition release_driver (emergencyId : string) (emergency : Emergency)
    (st : State) : State * list Emit :=
  match assignedDriver emergency with
  | Some a =>
      match heap st !! a with
      | Some assigned =>
          let driverSocketId := d_socketId assigned in
          let out :=
            [ {| target := driverSocketId;
                 payload := emergency_cancelled emergencyId |} ] in
          match driver_of st driverSocketId with
          | Some (l, driver) =>
              (set_heap (<[l := set_d_status Available driver]> (heap st)) st,
               out)
          | None => (st, out)
          end
      | None => (st, [])
      end
  | None => (st, [])
  end.

(** [socket.on('patient:cancel', ...)].  The emergency object is marked
    ['cancelled'] in place and dropped from the map at the end of the same
    handler. *)
Definition patient_cancel (socket : SocketId) (emergencyId : string)
    (st : State) : State * list Emit :=
  match JsMap.get emergencyId (emergencies st) with
  | Some emergency =>
      if decide (patientSocketId emergency = socket) then
        let emergency' := set_e_status Cancelled emergency in
        let st0 :=
          set_emergencies
            (JsMap.set emergencyId emergency' (emergencies st)) st in
        let '(st1, out) := release_driver emergencyId emergency' st0 in
        (set_emergencies (JsMap.delete emergencyId (emergencies st1)) st1,
         out)
      else (st, [])
  | None => (st, [])
  end.

(** [socket.on('hospital:register', ...)] *)
Definition hospital_register (socket : SocketId)
    (data : HospitalRegisterData) (uuid : string) (st : State)
  : State * list Emit :=
  let hospital :=
    {| h_id := uuid;
       h_socketId := socket;
       h_name := or_string (hd_name data) "City Hospital";
       beds := Some (or_number (hd_beds data) 10);
       icu := Some (or_number (hd_icu data) 2);
       h_location :=
         or_location (hd_location data) default_hospital_location |} in
  (set_hospitals (JsMap.set socket hospital (hospitals st)) st,
   [ {| target := socket; payload := hospital_registered true hospital |} ]).

(** [socket.on('hospital:update-beds', ...)] *)
Definition hospital_update_beds (socket : SocketId) (data : UpdateBedsData)
    (st : State) : State * list Emit :=
  match JsMap.get socket (hospitals st) with
  | Some hospital =>
      (set_hospitals
         (JsMap.set socket (set_beds (ub_beds data) (ub_icu data) hospital)
            (hospitals st)) st, [])
  | None => (st, [])
  end.

(** [socket.on('disconnect', ...)]: the driver and the hospital of the
    socket are deleted; [state.emergencies] is not touched. *)
Definition disconnect (socket : SocketId) (st : State) : State * list Emit :=
  let st1 :=
    if JsMap.has socket (drivers st)
    then set_drivers (JsMap.delete socket (drivers st)) st
    else st in
  let st2 :=
    if JsMap.has socket (hospitals st1)
    then set_hospitals (JsMap.delete socket (hospitals st1)) st1
    else st1 in
  (st2, []).

(** ** The event loop *)

Inductive Event :=
  | DriverRegister (socket : SocketId) (data : DriverRegisterData)
      (uuid : string)
  | DriverUpdateLocation (socket : SocketId) (location : Location)
  | DriverAccept (socket : SocketId) (emergencyId : string)
  | DriverReject (socket : SocketId) (emergencyId : string)
  | PatientSos (socket : SocketId) (data : SosData) (uuid : string) (now : Z)
  | PatientCancel (socket : SocketId) (emergencyId : string)
  | HospitalRegister (socket : SocketId) (data : HospitalRegisterData)
      (uuid : string)
  | HospitalUpdateBeds (socket : SocketId) (data : UpdateBedsData)
  | Disconnect (socket : SocketId).

Definition handle (ev : Event) (st : State) : State * list Emit :=
  match ev with
  | DriverRegister socket data uuid => driver_register socket data uuid st
  | DriverUpdateLocation socket location =>
      driver_update_location socket location st
  | DriverAccept socket emergencyId => driver_accept socket emergencyId st
  | DriverReject socket emergencyId => driver_reject socket emergencyId st
  | PatientSos socket data uuid now => patient_sos socket data uuid now st
  | PatientCancel socket emergencyId => patient_cancel socket emergencyId st
  | HospitalRegister socket data uuid =>
      hospital_register socket data uuid st
  | HospitalUpdateBeds socket data => hospital_update_beds socket data st
  | Disconnect socket => disconnect socket st
  end.

(** Events are handled one after the other, each to completion. *)
Fixpoint run (evs : list Event) (st : State) : State * list Emit :=
  match evs with
  | [] => (st, [])
  | ev :: evs' =>
      let '(st1, out1) := handle ev st in
      let '(st2, out2) := run evs' st1 in
      (st2, (out1 ++ out2)%list)
  end.

(** ** Runs and reachable states *)

(** [uuidv4()] draws an identifier that the ledger does not hold. *)
Definition fresh_uuid (ev : Event) (st : State) : bool :=
  match ev with
  | PatientSos _ _ uuid _ => negb (JsMap.has uuid (emergencies st))
  | _ => true
  end.

Fixpoint admissible (evs : list Event) (st : State) : bool :=
  match evs with
  | [] => true
  | ev :: evs' => fresh_uuid ev st && admissible evs' (handle ev st).1
  end.

(** The states of the coordinator: the server starts with three empty maps
    and handles one event after the other. *)
Inductive reachable : State → Prop :=
  | reachable_init : reachable initial_state
  | reachable_step st ev :
      reachable st → fresh_uuid ev st = true → reachable (handle ev st).1.

(** [ev] is a [patient:sos] for which [uuidv4()] returned [emergencyId]. *)
Definition creates (emergencyId : string) (ev : Event) : bool :=
  match ev with
  | PatientSos _ _ uuid _ => bool_decide (uuid = emergencyId)
  | _ => false
  end.

(** [ev] is a [driver:accept] for [emergencyId] that passes the guard in
    [st]. *)
Definition commits (emergencyId : string) (ev : Event) (st : State) : bool :=
  match ev with
  | DriverAccept socket eid =>
      bool_decide (eid = emergencyId)
      && bool_decide (is_Some (accept_guard socket eid st))
  | _ => false
  end.

(** How many events of a run are accepts of [emergencyId] that commit. *)
Fixpoint committed_accepts (emergencyId : string) (evs : list Event)
    (st : State) : nat :=
  match evs with
  | [] => 0
  | ev :: evs' =>
      (if commits emergencyId ev st then 1 else 0)
      + committed_accepts emergencyId evs' (handle ev st).1
  end.

(** Every registered driver object exists and carries the id of the socket
    it is registered under. *)
Definition wf_state (st : State) : Prop :=
  ∀ socket l, JsMap.get socket (drivers st) = Some l →
    ∃ driver, heap st !! l = Some driver ∧ d_socketId driver = socket.

(** The driver object at [l] is the assigned driver of the accepted
    request [emergencyId]. *)
Definition assigned_to (st : State) (l : loc) (emergencyId : string) : Prop :=
  ∃ emergency,
    JsMap.get emergencyId (emergencies st) = Some emergency
    ∧ e_status emergency = Accepted
    ∧ assignedDriver emergency = Some l.

(** Every registered driver that is [busy] is the assigned driver of an
    accepted request. *)
Definition busy_is_assigned (st : State) : Prop :=
  ∀ socket l driver,
    JsMap.get socket (drivers st) = Some l →
    heap st !! l = Some driver →
    d_status driver = Busy →
    ∃ emergencyId, assigned_to st l emergencyId.

Definition is_offer (p : Payload) : bool :=
  match p with
  | emergency_new_request _ _ _ _ _ => true
  | _ => false
  end.

(** The request [emergencyId] is not open for acceptance: the ledger does
    not hold it, or holds it in another state than ['searching']. *)
Definition resolved (emergencyId : string) (st : State) : Prop :=
  ∀ emergency,
    JsMap.get emergencyId (emergencies st) = Some emergency →
    e_status emergency ≠ Searching.

(** ** Sample payloads for the scenarios *)

Definition no_register_data : DriverRegisterData :=
  {| rd_name := None; rd_vehicle := None; rd_location := None |}.

Definition no_sos_data : SosData :=
  {| sd_location := None; sd_severity := None; sd_type := None |}.

Definition ravi : DriverRegisterData :=
  {| rd_name := Some "Ravi"; rd_vehicle := Some "MH-01-1234";
     rd_location := Some mumbai |}.

Definition asha : DriverRegisterData :=
  {| rd_name := Some "Asha"; rd_vehicle := Some "MH-02-9876";
     rd_location := None |}.

Definition chest_pain : SosData :=
  {| sd_location :=
       Some {| lat := 19.08%float; lng := 72.88%float; address := None |};
     sd_severity := Some "high"; sd_type := Some "cardiac" |}.

(** A responder and an open request. *)
Definition open_request : list Event :=
  [ DriverRegister "d1" ravi "u1";
    PatientSos "p1" chest_pain "e1" 1000 ].

(** Two responders and an open request. *)
Definition open_request_two_drivers : list Event :=
  [ DriverRegister "d1" ravi "u1";
    DriverRegister "d2" asha "u2";
    PatientSos "p1" chest_pain "e1" 1000 ].

(** A responder that has accepted a request. *)
Definition one_accept : list Event :=
  [ DriverRegister "d1" ravi "u1";
    PatientSos "p1" chest_pain "e1" 1000;
    DriverAccept "d1" "e1" ].

(** A responder that was offered two requests while available and accepts
    both. *)
Definition two_accepts_one_driver : list Event :=
  [ DriverRegister "d1" ravi "u1";
    PatientSos "p1" chest_pain "e1" 1000;
    PatientSos "p2" no_sos_data "e2" 2000;
    DriverAccept "d1" "e1";
    DriverAccept "d1" "e2" ].

(** ** Senders and the status dashboard *)

(** The socket an event arrived on. *)
Definition sender (ev : Event) : SocketId :=
  match ev with
  | DriverRegister socket _ _ => socket
  | DriverUpdateLocation socket _ => socket
  | DriverAccept socket _ => socket
  | DriverReject socket _ => socket
  | PatientSos socket _ _ _ => socket
  | PatientCancel socket _ => socket
  | HospitalRegister socket _ _ => socket
  | HospitalUpdateBeds socket _ => socket
  | Disconnect socket => socket
  end.

(** The keys of a [Map], in the order of the map. *)
Definition keys {K V : Type} (m : list (K * V)) : list K := map fst m.

(** The rows of the [/status] endpoint. *)
Record DriverRow := mkDriverRow {
  row_name : string;
  row_vehicle : string;
  row_status : DriverStatus
}.

Record EmergencyRow := mkEmergencyRow {
  row_id : string;
  row_e_status : EmergencyStatus;
  row_severity : string
}.

Record HospitalRow := mkHospitalRow {
  row_h_name : string;
  row_beds : option Z;
  row_icu : option Z
}.

Record StatusReport := mkStatusReport {
  report_drivers : list DriverRow;
  report_emergencies : list EmergencyRow;
  report_hospitals : list HospitalRow
}.

(** [Array.from(state.drivers.values())]: the driver objects of the
    registry, in the order of the map. *)
Fixpoint driver_values (h : list Driver) (ds : list (SocketId * loc))
  : list Driver :=
  match ds with
  | [] => []
  | (_, l) :: ds' =>
      match h !! l with
      | Some driver => driver :: driver_values h ds'
      | None => driver_values h ds'
      end
  end.

(** [app.get('/status', ...)]: the JSON body of the response. *)
Definition status_report (st : State) : StatusReport :=
  {| report_drivers :=
       map (λ d, {| row_name := d_name d; row_vehicle := d_vehicle d;
                    row_status := d_status d |})
         (driver_values (heap st) (drivers st));
     report_emergencies :=
       map (λ e : string * Emergency,
              {| row_id := e_id e.2; row_e_status := e_status e.2;
                 row_severity := severity e.2 |})
         (emergencies st);
     report_hospitals :=
       map (λ h : SocketId * Hospital,
              {| row_h_name := h_name h.2; row_beds := beds h.2;
                 row_icu := icu h.2 |})
         (hospitals st) |}.

(** ** The patient profile document

    [patientProfileSchema.methods.isComplete] and the validator of
    [emergencyContacts].  Both are chains of JavaScript [&&], which return
    the first falsy operand or else the last operand, so they are modelled
    on JavaScript values. *)

Module Profile.

(** The values the two functions handle: [undefined], booleans, numbers,
    strings and arrays (an array counts here by its length only). *)
Inductive JsValue :=
  | JsUndefined
  | JsBool (b : bool)
  | JsNumber (n : float)
  | JsString (s : string)
  | JsArray (len : nat).

(** [ToBoolean]: [undefined], [false], [0], [-0], [NaN] and [''] are
    falsy; every array is truthy. *)
Definition truthy (v : JsValue) : bool :=
  match v with
  | JsUndefined => false
  | JsBool b => b
  | JsNumber n => negb (is_zero n || is_nan n)
  | JsString s => negb (bool_decide (s = ""))
  | JsArray _ => true
  end.

(** [a && b] *)
Definition js_and (a b : JsValue) : JsValue :=
  if truthy a then b else a.

Record EmergencyContact := mkEmergencyContact {
  name : string;
  relation : string;
  phone : string
}.

Record ConsentSettings := mkConsentSettings {
  allowLocation : bool;
  allowSMS : bool;
  allowFamilyNotification : bool;
  allowMedicalShareInEmergency : bool;
  consentAccepted : bool
}.

(** The fields of a profile document that [isComplete] reads; [None] is a
    field that is not set. *)
Record PatientProfile := mkPatientProfile {
  fullName : option string;
  age : option float;
  gender : option string;
  address : option string;
  bloodGroup : option string;
  phoneNumber : option string;
  email : option string;
  emergencyContacts : option (list EmergencyContact);
  preferredHospitals : option (list string);
  consentSettings : option ConsentSettings
}.

Definition of_string (o : option string) : JsValue :=
  match o with Some s => JsString s | None => JsUndefined end.

Definition of_number (o : option float) : JsValue :=
  match o with Some n => JsNumber n | None => JsUndefined end.

Definition of_array {A : Type} (o : option (list A)) : JsValue :=
  match o with Some l => JsArray (length l) | None => JsUndefined end.

(** [xs?.length >= 2]: [undefined >= 2] is [false]. *)
Definition length_ge_2 {A : Type} (o : option (list A)) : JsValue :=
  match o with
  | Some l => JsBool (bool_decide (2 ≤ length l)%nat)
  | None => JsBool false
  end.

(** [this.consentSettings?.consentAccepted] *)
Definition consent_accepted (o : option ConsentSettings) : JsValue :=
  match o with
  | Some c => JsBool (consentAccepted c)
  | None => JsUndefined
  end.

(** The validator of [emergencyContacts]:
    [contacts && contacts.length >= 2]. *)
Definition contacts_validator (contacts : option (list EmergencyContact))
  : JsValue :=
  js_and (of_array contacts) (length_ge_2 contacts).

(** [patientProfileSchema.methods.isComplete] *)
Definition isComplete (this : PatientProfile) : JsValue :=
  js_and (js_and (js_and (js_and (js_and (js_and (js_and (js_and (js_and
    (of_string (fullName this))
    (of_number (age this)))
    (of_string (gender this)))
    (of_string (address this)))
    (of_string (bloodGroup this)))
    (of_string (phoneNumber this)))
    (of_string (email this)))
    (length_ge_2 (emergencyContacts this)))
    (length_ge_2 (preferredHospitals this)))
    (consent_accepted (consentSettings this)).

(** A string field that is set and not empty. *)
Definition filled (o : option string) : Prop :=
  ∃ s, o = Some s ∧ s ≠ "".

(** An array field that is set and has at least two elements. *)
Definition two_or_more {A : Type} (o : option (list A)) : Prop :=
  ∃ l, o = Some l ∧ (2 ≤ length l)%nat.

End Profile.

(** ** Predicates of the further properties *)

(** [d'] is the driver object [d] up to its mutable fields [location] and
    [status]. *)
Definition same_identity (d d' : Driver) : Prop :=
  d_id d' = d_id d ∧ d_socketId d' = d_socketId d
  ∧ d_name d' = d_name d ∧ d_vehicle d' = d_vehicle d.

(** [e'] is the request [e] up to its mutable fields [status] and
    [assignedDriver]. *)
Definition same_request (e e' : Emergency) : Prop :=
  e_id e' = e_id e ∧ patientSocketId e' = patientSocketId e
  ∧ e_location e' = e_location e ∧ severity e' = severity e
  ∧ e_type e' = e_type e ∧ timestamp e' = timestamp e.

(** The socket ids the coordinator has seen in state [st] while it handles
    [ev]: the sender, the keys of the registry and of the hospitals, the
    owners of the requests of the ledger, and the sockets of the driver
    objects. *)
Definition known_socket (st : State) (ev : Event) (s : SocketId) : Prop :=
  s = sender ev
  ∨ s ∈ keys (drivers st)
  ∨ s ∈ keys (hospitals st)
  ∨ (∃ i e, JsMap.get i (emergencies st) = Some e ∧ patientSocketId e = s)
  ∨ (∃ l d, heap st !! l = Some d ∧ d_socketId d = s).

(** The request [e] stored under [i]: it carries its key as [id], and it
    is ['searching'] without an assigned driver or ['accepted'] with an
    assigned driver object of the store. *)
Definition request_ok (st : State) (i : string) (e : Emergency) : Prop :=
  e_id e = i
  ∧ ((e_status e = Searching ∧ assignedDriver e = None)
     ∨ (e_status e = Accepted
        ∧ ∃ l d, assignedDriver e = Some l ∧ heap st !! l = Some d)).

(** ** More sample payloads *)

(** A responder registers again on its socket after it accepted a
    request. *)
Definition accept_then_register_again : list Event :=
  one_accept ++ [ DriverRegister "d1" asha "u3" ].


Definition complete_profile : Profile.PatientProfile :=
  {| Profile.fullName := Some "Meera Iyer";
     Profile.age := Some 34%float;
     Profile.gender := Some "female";
     Profile.address := Some "12 Marine Drive, Mumbai";
     Profile.bloodGroup := Some "O+";
     Profile.phoneNumber := Some "9820012345";
     Profile.email := Some "meera@example.org";
     Profile.emergencyContacts :=
       Some [ Profile.mkEmergencyContact "Arun" "brother" "9820011111";
              Profile.mkEmergencyContact "Lata" "mother" "9820022222" ];
     Profile.preferredHospitals := Some [ "h1"; "h2" ];
     Profile.consentSettings :=
       Some (Profile.mkConsentSettings true true true true true) |}.

(** * Properties *)

(** ** Facts about [Map] *)

Section js_map_facts.
Context {K V : Type} `{EqDecision K}.
Implicit Types (k : K) (v : V) (m : list (K * V)).

Lemma get_set_eq k v m : JsMap.get k (JsMap.set k v m) = Some v.
Proof.
  induction m as [|[k' v'] m IH]; simpl.
  - by rewrite decide_True.
  - destruct (decide (k' = k)) as [->|Hne]; simpl.
    + by rewrite decide_True.
    + by rewrite decide_False.
Qed.

Lemma get_set_ne k k' v m :
  k ≠ k' → JsMap.get k' (JsMap.set k v m) = JsMap.get k' m.
Proof.
  intros Hne. induction m as [|[k0 v0] m IH]; simpl.
  - by rewrite decide_False.
  - destruct (decide (k0 = k)) as [->|Hne0]; simpl.
    + by rewrite !decide_False.
    + destruct (decide (k0 = k')); [done | apply IH].
Qed.

Lemma get_delete_eq k m : JsMap.get k (JsMap.delete k m) = None.
Proof.
  induction m as [|[k' v'] m IH]; simpl; [done|].
  destruct (decide (k' = k)) as [->|Hne]; simpl; [done|].
  by rewrite decide_False.
Qed.

Lemma get_delete_ne k k' m :
  k ≠ k' → JsMap.get k' (JsMap.delete k m) = JsMap.get k' m.
Proof.
  intros Hne. induction m as [|[k0 v0] m IH]; simpl; [done|].
  destruct (decide (k0 = k)) as [->|Hne0]; simpl.
  - by rewrite decide_False.
  - destruct (decide (k0 = k')); [done | apply IH].
Qed.

Lemma delete_set k v m : JsMap.delete k (JsMap.set k v m) = JsMap.delete k m.
Proof.
  induction m as [|[k' v'] m IH]; simpl.
  - by rewrite decide_True.
  - destruct (decide (k' = k)) as [->|Hne]; simpl.
    + by rewrite decide_True.
    + by rewrite decide_False, IH.
Qed.

Lemma delete_absent k m : JsMap.get k m = None → JsMap.delete k m = m.
Proof.
  induction m as [|[k' v'] m IH]; simpl; [done|].
  destruct (decide (k' = k)); [done|]. intros Hm. by rewrite IH.
Qed.

Lemma has_get k m : JsMap.has k m = bool_decide (is_Some (JsMap.get k m)).
Proof.
  unfold JsMap.has. destruct (JsMap.get k m) as [v|].
  - symmetry. apply bool_decide_eq_true. by exists v.
  - symmetry. apply bool_decide_eq_false. by intros [v ?].
Qed.

(** [if (m.has(k)) m.delete(k)] is [m.delete(k)]. *)
Lemma delete_if_has k m :
  (if JsMap.has k m then JsMap.delete k m else m) = JsMap.delete k m.
Proof.
  unfold JsMap.has. destruct (JsMap.get k m) eqn:Hm; [done|].
  by rewrite delete_absent.
Qed.
End js_map_facts.

(** ** The end-to-end scenarios, run on the handlers *)

(** Scenario 1: one responder, one request, one offer, one accept. *)
Example scenario_offer_and_accept :
  let evs := [ DriverRegister "d1" ravi "u1";
               PatientSos "p1" chest_pain "e1" 1000 ] in
  let st := (run evs initial_state).1 in
  (handle (PatientSos "p1" chest_pain "e1" 1000)
     (handle (DriverRegister "d1" ravi "u1") initial_state).1).2
  = [ {| target := "p1"; payload := emergency_created "e1" Searching |};
      {| target := "d1";
         payload := emergency_new_request "e1"
           {| lat := 19.08%float; lng := 72.88%float; address := None |}
           "high" "cardiac"
           (calculateDistance mumbai
              {| lat := 19.08%float; lng := 72.88%float;
                 address := None |}) |} ]
  ∧ (d_status <$> (snd <$> driver_of (handle (DriverAccept "d1" "e1") st).1 "d1"))
    = Some Busy.
Proof. split; reflexivity. Qed.

(** ** What each handler does to the three maps *)

Lemma release_driver_frame emergencyId emergency st :
  let st1 := (release_driver emergencyId emergency st).1 in
  drivers st1 = drivers st
  ∧ emergencies st1 = emergencies st
  ∧ hospitals st1 = hospitals st.
Proof.
  unfold release_driver.
  destruct (assignedDriver emergency) as [a|]; [|done].
  destruct (heap st !! a) as [assigned|]; [|done].
  by destruct (driver_of st (d_socketId assigned)) as [[l driver]|].
Qed.

Lemma patient_cancel_emergencies socket emergencyId st :
  emergencies (patient_cancel socket emergencyId st).1
  = match JsMap.get emergencyId (emergencies st) with
    | Some emergency =>
        if decide (patientSocketId emergency = socket)
        then JsMap.delete emergencyId (emergencies st)
        else emergencies st
    | None => emergencies st
    end.
Proof.
  unfold patient_cancel.
  destruct (JsMap.get emergencyId (emergencies st)) as [emergency|]; [|done].
  destruct (decide (patientSocketId emergency = socket)); [|done].
  match goal with
  | |- context [release_driver ?i ?e ?s] =>
      pose proof (release_driver_frame i e s) as (_ & Hem & _);
      destruct (release_driver i e s) as [st1 out]
  end.
  simpl in *. rewrite Hem. apply delete_set.
Qed.

Lemma disconnect_emergencies socket st :
  emergencies (disconnect socket st).1 = emergencies st.
Proof.
  unfold disconnect; simpl.
  by destruct (JsMap.has socket (drivers st)), (JsMap.has socket _).
Qed.

Lemma disconnect_heap socket st : heap (disconnect socket st).1 = heap st.
Proof.
  unfold disconnect; simpl.
  by destruct (JsMap.has socket (drivers st)), (JsMap.has socket _).
Qed.

Lemma disconnect_drivers socket st :
  drivers (disconnect socket st).1 = JsMap.delete socket (drivers st).
Proof.
  unfold disconnect; simpl.
  rewrite <- (delete_if_has socket (drivers st)).
  by destruct (JsMap.has socket (drivers st)), (JsMap.has socket _).
Qed.

Lemma accept_guard_Some socket emergencyId st l driver emergency :
  accept_guard socket emergencyId st = Some (l, driver, emergency) ↔
  driver_of st socket = Some (l, driver)
  ∧ JsMap.get emergencyId (emergencies st) = Some emergency
  ∧ e_status emergency = Searching.
Proof.
  unfold accept_guard.
  destruct (driver_of st socket) as [[l0 d0]|];
    [|split; [done | by intros (? & _)]].
  destruct (JsMap.get emergencyId (emergencies st)) as [e0|];
    [|split; [done | by intros (_ & ? & _)]].
  destruct (decide (e_status e0 = Searching)) as [Hs|Hs].
  - split; [by intros [= -> -> ->] | by intros ([= -> ->] & [= ->] & _)].
  - split; [done | intros (_ & [= ->] & ?); done].
Qed.

Lemma driver_of_Some st socket l driver :
  driver_of st socket = Some (l, driver) ↔
  JsMap.get socket (drivers st) = Some l ∧ heap st !! l = Some driver.
Proof.
  unfold driver_of.
  destruct (JsMap.get socket (drivers st)) as [l0|];
    [|split; [done | by intros (? & _)]].
  destruct (heap st !! l0) as [d0|] eqn:Hl0.
  - split; [by intros [= -> ->] | intros ([= ->] & Hd); congruence].
  - split; [done | intros ([= ->] & Hd); congruence].
Qed.

(** The ledger after an event. *)
Lemma handle_emergencies ev st :
  emergencies (handle ev st).1
  = match ev with
    | DriverAccept socket emergencyId =>
        match accept_guard socket emergencyId st with
        | Some (l, _, emergency) =>
            JsMap.set emergencyId
              (set_assignedDriver (Some l) (set_e_status Accepted emergency))
              (emergencies st)
        | None => emergencies st
        end
    | PatientSos socket data uuid now =>
        JsMap.set uuid
          {| e_id := uuid; patientSocketId := socket;
             e_location := or_location (sd_location data) unknown_location;
             severity := or_string (sd_severity data) "high";
             e_type := or_string (sd_type data) "accident";
             e_status := Searching; timestamp := now;
             assignedDriver := None |} (emergencies st)
    | PatientCancel socket emergencyId =>
        emergencies (patient_cancel socket emergencyId st).1
    | _ => emergencies st
    end.
Proof.
  destruct ev as [s d u|s loc0|s i|s i|s d u n|s i|s d u|s d|s]; simpl;
    try done.
  - unfold driver_update_location. by destruct (driver_of st s) as [[??]|].
  - unfold driver_accept.
    by destruct (accept_guard s i st) as [[[l d] e]|].
  - unfold driver_reject. by destruct (JsMap.get i (emergencies st)).
  - unfold hospital_update_beds. by destruct (JsMap.get s (hospitals st)).
  - apply disconnect_emergencies.
Qed.

(** ** First accept wins *)

Lemma resolved_accept_guard socket emergencyId st :
  resolved emergencyId st → accept_guard socket emergencyId st = None.
Proof.
  intros Hres.
  destruct (accept_guard socket emergencyId st) as [[[l d] e]|] eqn:Hg;
    [|done].
  apply accept_guard_Some in Hg as (_ & Hget & Hs). by destruct (Hres e).
Qed.

Lemma resolved_after_commit socket emergencyId st :
  is_Some (accept_guard socket emergencyId st) →
  resolved emergencyId (driver_accept socket emergencyId st).1.
Proof.
  intros [[[l d] e] Hg] e'. unfold driver_accept. rewrite Hg; simpl.
  rewrite get_set_eq. by intros [= <-].
Qed.

Lemma resolved_handle emergencyId ev st :
  creates emergencyId ev = false →
  resolved emergencyId st → resolved emergencyId (handle ev st).1.
Proof.
  intros Hcr Hres e. rewrite handle_emergencies.
  destruct ev as [s d u|s loc0|s i|s i|s d u n|s i|s d u|s d|s];
    try apply Hres.
  - destruct (accept_guard s i st) as [[[l d] e0]|] eqn:Hg; [|apply Hres].
    destruct (decide (i = emergencyId)) as [->|Hne].
    + rewrite get_set_eq. by intros [= <-].
    + rewrite get_set_ne by done. apply Hres.
  - simpl in Hcr. apply bool_decide_eq_false in Hcr.
    rewrite get_set_ne by done. apply Hres.
  - rewrite patient_cancel_emergencies.
    destruct (JsMap.get i (emergencies st)) as [e0|]; [|apply Hres].
    destruct (decide (patientSocketId e0 = s)); [|apply Hres].
    destruct (decide (i = emergencyId)) as [->|Hne].
    + by rewrite get_delete_eq.
    + rewrite get_delete_ne by done. apply Hres.
Qed.

Lemma resolved_run emergencyId evs st :
  Forall (λ ev, creates emergencyId ev = false) evs →
  resolved emergencyId st → resolved emergencyId (run evs st).1.
Proof.
  intros Hevs. revert st.
  induction Hevs as [|ev evs Hev _ IH]; intros st Hres; [done|].
  simpl. destruct (handle ev st) as [st1 out1] eqn:Hh.
  specialize (IH st1). destruct (run evs st1) as [st2 out2]. simpl in *.
  apply IH. replace st1 with (handle ev st).1 by by rewrite Hh.
  by apply resolved_handle.
Qed.

Lemma resolved_no_commit emergencyId evs st :
  Forall (λ ev, creates emergencyId ev = false) evs →
  resolved emergencyId st → committed_accepts emergencyId evs st = 0.
Proof.
  intros Hevs. revert st.
  induction Hevs as [|ev evs Hev _ IH]; intros st Hres; [done|].
  simpl. rewrite IH by by apply resolved_handle.
  destruct ev; simpl; try done.
  destruct (bool_decide _) eqn:Hid; [|done].
  apply bool_decide_eq_true in Hid as ->.
  by rewrite resolved_accept_guard.
Qed.

Lemma committed_accepts_le_1 emergencyId evs st :
  Forall (λ ev, creates emergencyId ev = false) evs →
  (committed_accepts emergencyId evs st ≤ 1)%nat.
Proof.
  intros Hevs. revert st.
  induction Hevs as [|ev evs Hev Hevs IH]; intros st; simpl; [lia|].
  destruct (commits emergencyId ev st) eqn:Hc; [|apply IH].
  destruct ev as [| |s i| | | | | |]; try done. simpl in Hc.
  apply andb_true_iff in Hc as [Hid Hg].
  apply bool_decide_eq_true in Hid as ->.
  apply bool_decide_eq_true in Hg.
  rewrite resolved_no_commit; [lia | done |].
  by apply resolved_after_commit.
Qed.

(** C1.  For every request id, every state and every sequence of events in
    which [uuidv4()] does not return that id again (so in particular every
    sequence of [driver:accept] events): an accept commits only if the
    socket has a driver and the ledger holds the request with status
    exactly ['searching'], and it then stores the request as ['accepted']
    with that driver as [assignedDriver]; at most one accept of the
    sequence commits; and after a committed accept and any such sequence,
    an accept of the same request by any socket leaves the whole state as
    it is (status and assigned driver included) and emits nothing, so no
    confirmation reaches the loser. *)
Theorem first_accept_wins (emergencyId : string) (evs : list Event)
    (st : State) :
  Forall (λ ev, creates emergencyId ev = false) evs →
  (∀ socket l driver emergency,
     accept_guard socket emergencyId st = Some (l, driver, emergency) →
     driver_of st socket = Some (l, driver)
     ∧ JsMap.get emergencyId (emergencies st) = Some emergency
     ∧ e_status emergency = Searching
     ∧ JsMap.get emergencyId
         (emergencies (driver_accept socket emergencyId st).1)
       = Some (set_assignedDriver (Some l)
                 (set_e_status Accepted emergency)))
  ∧ (committed_accepts emergencyId evs st ≤ 1)%nat
  ∧ (∀ winner loser,
       is_Some (accept_guard winner emergencyId st) →
       let st' := (run (DriverAccept winner emergencyId :: evs) st).1 in
       driver_accept loser emergencyId st' = (st', [])).
Proof.
  intros Hevs. split; [|split].
  - intros socket l driver emergency Hg.
    pose proof Hg as (Hd & He & Hs)%accept_guard_Some.
    repeat split; try done.
    unfold driver_accept. rewrite Hg; simpl. apply get_set_eq.
  - by apply committed_accepts_le_1.
  - intros winner loser Hg st'.
    assert (resolved emergencyId st') as Hres.
    { subst st'. simpl.
      pose proof (resolved_after_commit winner emergencyId st Hg) as H1.
      simpl. change (handle (DriverAccept winner emergencyId) st)
        with (driver_accept winner emergencyId st).
      destruct (driver_accept winner emergencyId st) as [st1 out1].
      pose proof (resolved_run emergencyId evs st1 Hevs H1) as H2.
      by destruct (run evs st1) as [st2 out2]. }
    unfold driver_accept. by rewrite resolved_accept_guard.
Qed.

Lemma first_accept_wins_witness :
  let st := (run open_request_two_drivers initial_state).1 in
  let evs := [ DriverAccept "d1" "e1"; DriverReject "d1" "e1" ] in
  let st' := (run (DriverAccept "d2" "e1" :: evs) st).1 in
  (committed_accepts "e1" (DriverAccept "d2" "e1" :: evs) st ≤ 1)%nat
  ∧ (assignedDriver <$> JsMap.get "e1" (emergencies st')) = Some (Some 1)
  ∧ driver_accept "d1" "e1" st' = (st', []).
Proof.
  intros st evs st'.
  assert (Forall (λ ev, creates "e1" ev = false)
            (DriverAccept "d2" "e1" :: evs)) as Hall
    by (repeat constructor).
  assert (Forall (λ ev, creates "e1" ev = false) evs) as Hevs
    by (repeat constructor).
  split; [apply (first_accept_wins "e1" _ st Hall)|].
  split; [reflexivity|].
  apply (first_accept_wins "e1" evs st Hevs). by eexists.
Defined.

(** ** Cancelling *)

(** A cancel by the owner: the assigned driver, if any, is released and the
    request leaves the ledger. *)
Lemma patient_cancel_owner socket emergencyId st emergency :
  JsMap.get emergencyId (emergencies st) = Some emergency →
  patientSocketId emergency = socket →
  patient_cancel socket emergencyId st
  = (set_emergencies (JsMap.delete emergencyId (emergencies st))
       (release_driver emergencyId emergency st).1,
     (release_driver emergencyId emergency st).2).
Proof.
  intros Hget Hown. unfold patient_cancel. rewrite Hget, decide_True by done.
  unfold release_driver, driver_of; simpl.
  destruct (assignedDriver emergency) as [a|]; simpl;
    [|by rewrite delete_set].
  destruct (heap st !! a) as [assigned|]; simpl; [|by rewrite delete_set].
  destruct (JsMap.get (d_socketId assigned) (drivers st)) as [l|]; simpl;
    [|by rewrite delete_set].
  destruct (heap st !! l) as [driver|]; simpl; by rewrite delete_set.
Qed.

Lemma patient_cancel_other socket emergencyId st emergency :
  JsMap.get emergencyId (emergencies st) = Some emergency →
  patientSocketId emergency ≠ socket →
  patient_cancel socket emergencyId st = (st, []).
Proof.
  intros Hget Hown. unfold patient_cancel.
  by rewrite Hget, decide_False.
Qed.

Lemma patient_cancel_unknown socket emergencyId st :
  JsMap.get emergencyId (emergencies st) = None →
  patient_cancel socket emergencyId st = (st, []).
Proof. intros Hget. unfold patient_cancel. by rewrite Hget. Qed.

(** The three cases of [patient:cancel] on request [i] from socket [s]: an
    id the ledger does not hold, a request of another socket, and the
    owner's cancel, which is left as the goal. *)
Ltac cancel_cases st s i e Hget Hown :=
  destruct (JsMap.get i (emergencies st)) as [e|] eqn:Hget;
    [|by rewrite patient_cancel_unknown];
  destruct (decide (patientSocketId e = s)) as [Hown|Hown];
    [|by erewrite patient_cancel_other];
  erewrite patient_cancel_owner by done; simpl.

(** The store of driver objects after [release_driver]: at most the driver
    registered under the socket of the assigned driver changes, and it
    becomes [available]. *)
Lemma release_driver_heap emergencyId emergency st l driver :
  heap (release_driver emergencyId emergency st).1 !! l = Some driver →
  heap st !! l = Some driver
  ∨ (d_status driver = Available
     ∧ ∃ a assigned old,
         assignedDriver emergency = Some a
         ∧ heap st !! a = Some assigned
         ∧ JsMap.get (d_socketId assigned) (drivers st) = Some l
         ∧ heap st !! l = Some old
         ∧ driver = set_d_status Available old).
Proof.
  unfold release_driver.
  destruct (assignedDriver emergency) as [a|] eqn:Ha; [|by left].
  destruct (heap st !! a) as [assigned|] eqn:Hassigned; [|by left].
  destruct (driver_of st (d_socketId assigned)) as [[l0 old]|] eqn:Hd;
    [|by left].
  apply driver_of_Some in Hd as [Hl0 Hold]. simpl.
  destruct (decide (l0 = l)) as [->|Hne].
  - rewrite list_lookup_insert_eq by by eapply lookup_lt_Some.
    intros [= <-]. right. split; [done|]. by exists a, assigned, old.
  - rewrite list_lookup_insert_ne by done. by left.
Qed.

(** The released driver: the object registered under the socket of the
    assigned driver is [available] afterwards. *)
Lemma release_driver_available emergencyId emergency st a assigned l driver :
  assignedDriver emergency = Some a →
  heap st !! a = Some assigned →
  let st1 := (release_driver emergencyId emergency st).1 in
  JsMap.get (d_socketId assigned) (drivers st1) = Some l →
  heap st1 !! l = Some driver →
  d_status driver = Available.
Proof.
  intros Ha Hassigned. unfold release_driver. rewrite Ha, Hassigned.
  destruct (driver_of st (d_socketId assigned)) as [[l0 old]|] eqn:Hd; simpl.
  - apply driver_of_Some in Hd as [Hl0 Hold].
    intros Hl. assert (l = l0) as -> by congruence.
    rewrite list_lookup_insert_eq by by eapply lookup_lt_Some.
    by intros [= <-].
  - intros Hl Hdr.
    assert (driver_of st (d_socketId assigned) = Some (l, driver)) as Hd'
      by by apply driver_of_Some.
    congruence.
Qed.

(** ** Invariants of the reachable states *)

Lemma wf_state_insert st st' l old new :
  wf_state st →
  drivers st' = drivers st →
  heap st !! l = Some old →
  heap st' = <[l := new]> (heap st) →
  d_socketId new = d_socketId old →
  wf_state st'.
Proof.
  intros Hwf Hdr Hold Hheap Hsock socket l' Hl'.
  rewrite Hdr in Hl'. destruct (Hwf _ _ Hl') as (d & Hd & Hds).
  rewrite Hheap. destruct (decide (l = l')) as [->|Hne].
  - exists new. rewrite list_lookup_insert_eq by by eapply lookup_lt_Some.
    split; [done|]. congruence.
  - exists d. by rewrite list_lookup_insert_ne.
Qed.

Lemma wf_state_same st st' :
  wf_state st → drivers st' = drivers st → heap st' = heap st →
  wf_state st'.
Proof. intros Hwf Hdr Hheap socket l. rewrite Hdr, Hheap. apply Hwf. Qed.

Lemma wf_state_release emergencyId emergency st :
  wf_state st → wf_state (release_driver emergencyId emergency st).1.
Proof.
  intros Hwf. unfold release_driver.
  destruct (assignedDriver emergency) as [a|]; [|done].
  destruct (heap st !! a) as [assigned|]; [|done].
  destruct (driver_of st (d_socketId assigned)) as [[l old]|] eqn:Hd;
    [|done].
  apply driver_of_Some in Hd as [_ Hold]. simpl.
  by eapply wf_state_insert.
Qed.

Lemma wf_state_handle ev st : wf_state st → wf_state (handle ev st).1.
Proof.
  intros Hwf.
  destruct ev as [s d u|s loc0|s i|s i|s d u n|s i|s d u|s d|s];
    cbn [handle].
  - intros socket l; simpl.
    destruct (decide (s = socket)) as [->|Hne].
    + rewrite get_set_eq. intros [= <-]. eexists.
      split; [apply list_lookup_middle; done | done].
    + rewrite get_set_ne by done. intros Hl.
      destruct (Hwf _ _ Hl) as (d0 & Hd0 & Hs0). exists d0.
      split; [by apply lookup_app_l_Some | done].
  - unfold driver_update_location.
    destruct (driver_of st s) as [[l old]|] eqn:Hd; [|done].
    apply driver_of_Some in Hd as [_ Hold]. by eapply wf_state_insert.
  - unfold driver_accept.
    destruct (accept_guard s i st) as [[[l old] e]|] eqn:Hg; [|done].
    apply accept_guard_Some in Hg as ((_ & Hold)%driver_of_Some & _).
    by eapply wf_state_insert.
  - unfold driver_reject. by destruct (JsMap.get i (emergencies st)).
  - by eapply wf_state_same.
  - cancel_cases st s i e Hget Hown.
    eapply wf_state_same; [by apply (wf_state_release i e)|done..].
  - by eapply wf_state_same.
  - unfold hospital_update_beds.
    destruct (JsMap.get s (hospitals st)); [|done]. by eapply wf_state_same.
  - intros socket l. rewrite disconnect_drivers, disconnect_heap.
    destruct (decide (s = socket)) as [->|Hne].
    + by rewrite get_delete_eq.
    + rewrite get_delete_ne by done. apply Hwf.
Qed.

Lemma reachable_wf st : reachable st → wf_state st.
Proof.
  induction 1 as [|st ev _ IH _]; [by intros socket l|].
  by apply wf_state_handle.
Qed.

Lemma assigned_to_ext st st' l emergencyId :
  emergencies st' = emergencies st →
  assigned_to st l emergencyId → assigned_to st' l emergencyId.
Proof. intros Hem (e & ? & ? & ?). exists e. by rewrite Hem. Qed.

Lemma busy_is_assigned_same st st' :
  drivers st' = drivers st → heap st' = heap st →
  emergencies st' = emergencies st →
  busy_is_assigned st → busy_is_assigned st'.
Proof.
  intros Hdr Hheap Hem Hinv socket l driver. rewrite Hdr, Hheap.
  intros Hl Hd Hbusy. destruct (Hinv _ _ _ Hl Hd Hbusy) as [i Hi].
  exists i. by apply (assigned_to_ext st).
Qed.

Lemma busy_is_assigned_cancel emergencyId emergency st :
  wf_state st →
  JsMap.get emergencyId (emergencies st) = Some emergency →
  busy_is_assigned st →
  busy_is_assigned
    (set_emergencies (JsMap.delete emergencyId (emergencies st))
       (release_driver emergencyId emergency st).1).
Proof.
  intros Hwf Hget Hinv s l driver; simpl.
  destruct (release_driver_frame emergencyId emergency st) as (Hdr & _ & _).
  rewrite Hdr. intros Hl Hd Hbusy.
  destruct (release_driver_heap _ _ _ _ _ Hd) as [Hold|[Hav _]];
    [|congruence].
  destruct (Hinv _ _ _ Hl Hold Hbusy) as (i & e & Hi & Hacc & Hasg).
  destruct (decide (emergencyId = i)) as [->|Hne].
  - assert (e = emergency) as -> by congruence.
    destruct (Hwf _ _ Hl) as (d0 & Hd0 & Hs0).
    assert (d0 = driver) as -> by congruence.
    assert (d_status driver = Available); [|congruence].
    eapply (release_driver_available i emergency st l driver l driver);
      [done..| |done].
    by rewrite Hdr, Hs0.
  - exists i, e. simpl. by rewrite get_delete_ne.
Qed.

Lemma busy_is_assigned_handle ev st :
  wf_state st → fresh_uuid ev st = true →
  busy_is_assigned st → busy_is_assigned (handle ev st).1.
Proof.
  intros Hwf Hfresh Hinv.
  destruct ev as [s d u|s loc0|s i|s i|s d u n|s i|s d u|s d|s];
    cbn [handle].
  - intros socket l driver; simpl.
    destruct (decide (s = socket)) as [->|Hne].
    + rewrite get_set_eq. intros [= <-].
      rewrite list_lookup_middle by done. by intros [= <-].
    + rewrite get_set_ne by done. intros Hl Hd Hbusy.
      destruct (Hwf _ _ Hl) as (d0 & Hd0 & _).
      rewrite (lookup_app_l_Some _ _ _ _ Hd0) in Hd.
      injection Hd as <-.
      destruct (Hinv _ _ _ Hl Hd0 Hbusy) as [i Hi]. by exists i.
  - unfold driver_update_location.
    destruct (driver_of st s) as [[l0 old]|] eqn:Hd0; [|done].
    apply driver_of_Some in Hd0 as [_ Hold].
    intros socket l driver; simpl. intros Hl Hd Hbusy.
    destruct (decide (l0 = l)) as [->|Hne].
    + rewrite list_lookup_insert_eq in Hd by by eapply lookup_lt_Some.
      injection Hd as <-.
      destruct (Hinv _ _ _ Hl Hold Hbusy) as [i Hi]. by exists i.
    + rewrite list_lookup_insert_ne in Hd by done.
      destruct (Hinv _ _ _ Hl Hd Hbusy) as [i Hi]. by exists i.
  - unfold driver_accept.
    destruct (accept_guard s i st) as [[[l0 old] e]|] eqn:Hg; [|done].
    apply accept_guard_Some in Hg as ((_ & Hold)%driver_of_Some & He & Hs).
    intros socket l driver; simpl. intros Hl Hd Hbusy.
    destruct (decide (l0 = l)) as [->|Hne].
    + exists i. eexists. simpl. rewrite get_set_eq. by split.
    + rewrite list_lookup_insert_ne in Hd by done.
      destruct (Hinv _ _ _ Hl Hd Hbusy) as (j & e2 & Hj & Hacc & Hasg).
      exists j, e2. simpl. rewrite get_set_ne; [done|].
      intros ->. congruence.
  - unfold driver_reject. by destruct (JsMap.get i (emergencies st)).
  - intros socket l driver; simpl. intros Hl Hd Hbusy.
    destruct (Hinv _ _ _ Hl Hd Hbusy) as (j & e2 & Hj & Hacc & Hasg).
    exists j, e2. simpl. rewrite get_set_ne; [done|].
    intros ->. simpl in Hfresh. rewrite has_get in Hfresh.
    apply negb_true_iff, bool_decide_eq_false in Hfresh.
    apply Hfresh. by exists e2.
  - cancel_cases st s i e Hget Hown.
    by apply busy_is_assigned_cancel.
  - by eapply busy_is_assigned_same.
  - unfold hospital_update_beds.
    destruct (JsMap.get s (hospitals st)); [|done].
    by eapply busy_is_assigned_same.
  - intros socket l driver.
    rewrite disconnect_drivers, disconnect_heap.
    destruct (decide (s = socket)) as [->|Hne];
      [by rewrite get_delete_eq|].
    rewrite get_delete_ne by done. intros Hl Hd Hbusy.
    destruct (Hinv _ _ _ Hl Hd Hbusy) as [j Hj]. exists j.
    eapply assigned_to_ext; [apply disconnect_emergencies | done].
Qed.

Lemma reachable_busy_is_assigned st : reachable st → busy_is_assigned st.
Proof.
  induction 1 as [|st ev Hst IH Hfresh]; [by intros socket l driver|].
  apply busy_is_assigned_handle; [by apply reachable_wf | done..].
Qed.

Lemma reachable_run evs st :
  reachable st → admissible evs st = true → reachable (run evs st).1.
Proof.
  revert st. induction evs as [|ev evs IH]; intros st Hst Hadm; [done|].
  simpl in *. apply andb_true_iff in Hadm as [Hfresh Hadm].
  pose proof (reachable_step st ev Hst Hfresh) as Hst1.
  destruct (handle ev st) as [st1 out1]. specialize (IH st1 Hst1 Hadm).
  by destruct (run evs st1) as [st2 out2].
Qed.

(** ** Responder exclusivity *)

(** C2, as stated, fails: a responder that was offered two requests while
    available accepts both, and is then the assigned driver of two accepted
    requests; [driver:accept] does not look at [driver.status]. *)
Lemma busy_iff_one_accepted_request_fails :
  ¬ (∀ st, reachable st →
     ∀ socket l driver,
       JsMap.get socket (drivers st) = Some l →
       heap st !! l = Some driver →
       (d_status driver = Busy ↔
        ∃ i, assigned_to st l i ∧ ∀ j, assigned_to st l j → j = i)).
Proof.
  intros Hclaim.
  pose (st := (run two_accepts_one_driver initial_state).1).
  assert (reachable st) as Hst
    by (apply reachable_run; [constructor | reflexivity]).
  assert (∃ driver, heap st !! 0 = Some driver ∧ d_status driver = Busy)
    as (driver & Hd & Hbusy) by (eexists; split; reflexivity).
  destruct (Hclaim st Hst "d1" 0 driver eq_refl Hd) as [Honly _].
  destruct (Honly Hbusy) as (i & _ & Huniq).
  assert ("e1" = i) as H1 by (apply Huniq; eexists; repeat split; reflexivity).
  assert ("e2" = i) as H2 by (apply Huniq; eexists; repeat split; reflexivity).
  congruence.
Qed.

(** C2, amended.  In every reachable state, a registered responder whose
    status is [busy] is the assigned driver of at least one request in
    state ['accepted']; and when the requester cancels an accepted request
    whose assigned driver is that registered responder, the responder is
    [available] afterwards and still registered. *)
Theorem busy_responder_holds_accepted_request (st : State)
    (socket : SocketId) (l : loc) (driver : Driver) :
  reachable st →
  JsMap.get socket (drivers st) = Some l →
  heap st !! l = Some driver →
  (d_status driver = Busy → ∃ i, assigned_to st l i)
  ∧ (∀ i emergency,
       JsMap.get i (emergencies st) = Some emergency →
       e_status emergency = Accepted →
       assignedDriver emergency = Some l →
       let st' := (patient_cancel (patientSocketId emergency) i st).1 in
       driver_of st' socket = Some (l, set_d_status Available driver)).
Proof.
  intros Hst Hl Hd. split.
  - intros Hbusy. by eapply reachable_busy_is_assigned.
  - intros i emergency Hi _ Hasg st'. subst st'.
    erewrite patient_cancel_owner by done.
    destruct (reachable_wf st Hst _ _ Hl) as (d0 & Hd0 & Hs0).
    assert (d0 = driver) as -> by congruence.
    assert (driver_of st socket = Some (l, driver)) as Hdo
      by by apply driver_of_Some.
    unfold release_driver. rewrite Hasg, Hd, Hs0, Hdo.
    apply driver_of_Some; simpl. split; [done|].
    apply list_lookup_insert_eq. by eapply lookup_lt_Some.
Qed.

Lemma busy_responder_holds_accepted_request_witness :
  let st := (run one_accept initial_state).1 in
  (∃ i, assigned_to st 0 i)
  ∧ (d_status <$> (snd <$> driver_of (patient_cancel "p1" "e1" st).1 "d1"))
    = Some Available.
Proof.
  intros st.
  assert (reachable st) as Hst
    by (apply reachable_run; [constructor | reflexivity]).
  assert (heap st !! 0 = Some (set_d_status Busy
            {| d_id := "u1"; d_socketId := "d1"; d_name := "Ravi";
               d_vehicle := "MH-01-1234"; d_location := mumbai;
               d_status := Available |})) as Hd by reflexivity.
  destruct (busy_responder_holds_accepted_request st "d1" 0 _ Hst
              eq_refl Hd) as [Hbusy Hcancel].
  split; [by apply Hbusy|].
  assert (∃ e, JsMap.get "e1" (emergencies st) = Some e
               ∧ e_status e = Accepted ∧ assignedDriver e = Some 0
               ∧ patientSocketId e = "p1")
    as (e & He & Hacc & Hasg & Hown) by (eexists; repeat split; reflexivity).
  specialize (Hcancel "e1" e He Hacc Hasg). simpl in Hcancel.
  rewrite Hown in Hcancel. by rewrite Hcancel.
Defined.

(** ** Disconnect *)

(** C3, as stated, fails: the [disconnect] handler deletes the driver and
    the hospital of the socket and nothing else, so a request of the
    disconnected requester stays ['searching'] and a responder can still
    accept it. *)
Lemma disconnect_cancels_requests_fails :
  ¬ (∀ st, reachable st →
     ∀ socket i emergency,
       JsMap.get i (emergencies st) = Some emergency →
       patientSocketId emergency = socket →
       e_status emergency = Searching ∨ e_status emergency = Accepted →
       let st' := (disconnect socket st).1 in
       (∀ e', JsMap.get i (emergencies st') = Some e' →
              e_status e' = Cancelled)
       ∧ (∀ driverSocket, accept_guard driverSocket i st' = None)).
Proof.
  intros Hclaim.
  pose (st := (run open_request initial_state).1).
  assert (reachable st) as Hst
    by (apply reachable_run; [constructor | reflexivity]).
  assert (∃ e, JsMap.get "e1" (emergencies st) = Some e
               ∧ patientSocketId e = "p1" ∧ e_status e = Searching)
    as (e & He & Hown & Hs) by (eexists; repeat split; reflexivity).
  destruct (Hclaim st Hst "p1" "e1" e He Hown (or_introl Hs)) as [_ Hacc].
  specialize (Hacc "d1"). vm_compute in Hacc. discriminate Hacc.
Qed.

(** C3, amended.  Processing a connection's [disconnect] deletes the
    driver and the hospital registered on that connection and nothing
    else: it emits nothing, the ledger and the driver objects are what
    they were, so the requests the connection owns keep their state and
    assigned driver, and a [driver:accept] from another connection passes
    the guard after the disconnect exactly when it passed before. *)
Theorem disconnect_leaves_ledger (socket driverSocket : SocketId)
    (emergencyId : string) (st : State) :
  driverSocket ≠ socket →
  let st' := (disconnect socket st).1 in
  (disconnect socket st).2 = []
  ∧ emergencies st' = emergencies st
  ∧ heap st' = heap st
  ∧ drivers st' = JsMap.delete socket (drivers st)
  ∧ hospitals st' = JsMap.delete socket (hospitals st)
  ∧ accept_guard driverSocket emergencyId st'
    = accept_guard driverSocket emergencyId st.
Proof.
  intros Hne st'. subst st'.
  pose proof (disconnect_emergencies socket st) as Hem.
  pose proof (disconnect_heap socket st) as Hheap.
  pose proof (disconnect_drivers socket st) as Hdr.
  repeat split; try done.
  - unfold disconnect; simpl.
    rewrite <- (delete_if_has socket (hospitals st)).
    by destruct (JsMap.has socket (drivers st)), (JsMap.has socket _).
  - unfold accept_guard, driver_of.
    by rewrite Hem, Hheap, Hdr, get_delete_ne.
Qed.

Lemma disconnect_leaves_ledger_witness :
  let st := (run open_request initial_state).1 in
  let st' := (disconnect "p1" st).1 in
  emergencies st' = emergencies st
  ∧ is_Some (accept_guard "d1" "e1" st').
Proof.
  intros st st'.
  assert ("d1" ≠ "p1") as Hne by discriminate.
  destruct (disconnect_leaves_ledger "p1" "d1" "e1" st Hne)
    as (_ & Hem & _ & _ & _ & Hg).
  split; [exact Hem|]. fold st' in Hg. rewrite Hg. by eexists.
Defined.

(** ** A committed accept *)

(** C4.  When a [driver:accept] passes the guard, the accepting driver
    object is [busy] afterwards, and the handler emits, in this order:
    [emergency:driver-assigned] with the driver's name, vehicle and the
    ETA ['5 mins'] to the requester's socket; [driver:assignment-confirmed]
    to the accepting socket; and one [hospital:incoming-patient] with the
    request id, the severity, the ETA ['8 mins'] and the vehicle for every
    entry of [state.hospitals], none left out and nothing else. *)
Theorem accept_notifies_everyone (socket : SocketId) (emergencyId : string)
    (st : State) (l : loc) (driver : Driver) (emergency : Emergency) :
  accept_guard socket emergencyId st = Some (l, driver, emergency) →
  let st' := (driver_accept socket emergencyId st).1 in
  let out := (driver_accept socket emergencyId st).2 in
  let emergency' :=
    set_assignedDriver (Some l) (set_e_status Accepted emergency) in
  driver_of st' socket = Some (l, set_d_status Busy driver)
  ∧ out
    = {| target := patientSocketId emergency;
         payload := emergency_driver_assigned emergencyId
           (d_name driver) (d_vehicle driver) "5 mins" |}
      :: {| target := socket;
            payload := driver_assignment_confirmed emergencyId emergency'
              (set_d_status Busy driver) |}
      :: map (λ h : SocketId * Hospital,
                {| target := h.1;
                   payload := hospital_incoming_patient emergencyId
                     (severity emergency) "8 mins" (d_vehicle driver) |})
           (hospitals st)
  ∧ (∀ hospitalSocketId hospital,
       (hospitalSocketId, hospital) ∈ hospitals st →
       {| target := hospitalSocketId;
          payload := hospital_incoming_patient emergencyId
            (severity emergency) "8 mins" (d_vehicle driver) |} ∈ out).
Proof.
  intros Hg st' out emergency'. subst st' out emergency'.
  pose proof Hg as ((Hl & Hd)%driver_of_Some & He & Hs)%accept_guard_Some.
  unfold driver_accept. rewrite Hg; simpl. split; [|split; [done|]].
  - apply driver_of_Some; simpl. split; [done|].
    apply list_lookup_insert_eq. by eapply lookup_lt_Some.
  - intros hospitalSocketId hospital Hin.
    do 2 apply list_elem_of_further. unfold notify_hospitals.
    apply list_elem_of_fmap. by exists (hospitalSocketId, hospital).
Qed.

Lemma accept_notifies_everyone_witness :
  let st :=
    (run (HospitalRegister "h1"
            {| hd_name := None; hd_beds := None; hd_icu := None;
               hd_location := None |} "u9" :: open_request)
       initial_state).1 in
  (d_status <$> (snd <$> driver_of (driver_accept "d1" "e1" st).1 "d1"))
  = Some Busy
  ∧ {| target := "h1";
       payload := hospital_incoming_patient "e1" "high" "8 mins"
                    "MH-01-1234" |}
    ∈ (driver_accept "d1" "e1" st).2.
Proof.
  intros st.
  assert (∃ l d e, accept_guard "d1" "e1" st = Some (l, d, e)
                   ∧ severity e = "high" ∧ d_vehicle d = "MH-01-1234")
    as (l & d & e & Hg & Hsev & Hveh)
    by (do 3 eexists; repeat split; reflexivity).
  destruct (accept_notifies_everyone "d1" "e1" st l d e Hg)
    as (Hbusy & _ & Hhos).
  split; [by rewrite Hbusy|].
  rewrite <- Hsev, <- Hveh. eapply Hhos. apply list_elem_of_here.
Defined.

(** ** Offers *)

Lemma offers_elem h emergency ds socketId l driver :
  (socketId, l) ∈ ds → h !! l = Some driver → d_status driver = Available →
  offer socketId driver emergency ∈ offers h emergency ds.
Proof.
  intros Hin Hd Hav.
  induction ds as [|[s0 l0] ds IH]; [by apply elem_of_nil in Hin|].
  apply elem_of_cons in Hin as [[= <- <-]|Hin]; simpl.
  - rewrite Hd, decide_True by done. apply list_elem_of_here.
  - destruct (h !! l0) as [d0|]; [|by apply IH].
    destruct (decide (d_status d0 = Available)); [|by apply IH].
    apply list_elem_of_further. by apply IH.
Qed.

Lemma offers_nil h emergency ds :
  (∀ socketId l driver,
     (socketId, l) ∈ ds → h !! l = Some driver →
     d_status driver ≠ Available) →
  offers h emergency ds = [].
Proof.
  induction ds as [|[s0 l0] ds IH]; intros Hnone; [done|]. simpl.
  destruct (h !! l0) as [d0|] eqn:Hd0.
  - rewrite decide_False
      by (apply (Hnone s0 l0); [apply list_elem_of_here|done]).
    apply IH. intros s l d Hin. apply (Hnone s l d). by apply list_elem_of_further.
  - apply IH. intros s l d Hin. apply (Hnone s l d). by apply list_elem_of_further.
Qed.

Lemma broadcast_offers st emergency socketId l driver :
  (socketId, l) ∈ drivers st → heap st !! l = Some driver →
  d_status driver = Available →
  offer socketId driver emergency ∈ broadcastToAvailableDrivers st emergency.
Proof.
  intros Hin Hd Hav. unfold broadcastToAvailableDrivers.
  pose proof (offers_elem (heap st) emergency _ _ _ _ Hin Hd Hav) as Hoff.
  destruct (decide _); [|done]. apply elem_of_app. by left.
Qed.

(** C5.  The handler of [driver:reject] breaks the claim at two inputs.
    Its comment says ['Try to find another driver'], but it tests only
    [if (emergency)] and calls the plain [broadcastToAvailableDrivers]:
    the responder that rejects a ['searching'] request is offered the same
    request again in that very broadcast, and a reject of a request that is
    already ['accepted'] is broadcast again as well, to the rejecting
    responder. *)
Theorem reject_rebroadcast_breaks_claim :
  (let st := (run open_request initial_state).1 in
   (e_status <$> JsMap.get "e1" (emergencies st)) = Some Searching
   ∧ driver_reject "d1" "e1" st
     = (st,
        [ {| target := "d1";
             payload := emergency_new_request "e1"
               {| lat := 19.08%float; lng := 72.88%float; address := None |}
               "high" "cardiac"
               (calculateDistance mumbai
                  {| lat := 19.08%float; lng := 72.88%float;
                     address := None |}) |} ]))
  ∧ (let st :=
       (run (open_request_two_drivers ++ [ DriverAccept "d1" "e1" ])
          initial_state).1 in
     (e_status <$> JsMap.get "e1" (emergencies st)) = Some Accepted
     ∧ driver_reject "d2" "e1" st
       = (st,
          [ {| target := "d2";
               payload := emergency_new_request "e1"
                 {| lat := 19.08%float; lng := 72.88%float;
                    address := None |}
                 "high" "cardiac"
                 (calculateDistance mumbai
                    {| lat := 19.08%float; lng := 72.88%float;
                       address := None |}) |} ])).
Proof. repeat split; reflexivity. Qed.

(** ** New request without an available responder *)

(** C6.  When no registered responder is [available], a [patient:sos]
    emits [emergency:created] and then [emergency:no-drivers] for the new
    request id, both to the requester's socket and nothing else, and the
    ledger holds the request under that id with status ['searching'],
    owned by the requester and with no assigned driver; the registry and
    the driver objects are untouched. *)
Theorem sos_without_available_driver (socket : SocketId) (data : SosData)
    (uuid : string) (now : Z) (st : State) :
  (∀ socketId l driver,
     (socketId, l) ∈ drivers st → heap st !! l = Some driver →
     d_status driver ≠ Available) →
  let st' := (patient_sos socket data uuid now st).1 in
  (patient_sos socket data uuid now st).2
  = [ {| target := socket; payload := emergency_created uuid Searching |};
      {| target := socket; payload := emergency_no_drivers uuid |} ]
  ∧ (∃ emergency,
       JsMap.get uuid (emergencies st') = Some emergency
       ∧ e_id emergency = uuid
       ∧ patientSocketId emergency = socket
       ∧ e_status emergency = Searching
       ∧ assignedDriver emergency = None)
  ∧ drivers st' = drivers st
  ∧ heap st' = heap st
  ∧ hospitals st' = hospitals st.
Proof.
  intros Hnone st'. subst st'. unfold patient_sos; simpl. split; [|split].
  - unfold broadcastToAvailableDrivers; simpl.
    by rewrite offers_nil.
  - eexists. rewrite get_set_eq. by repeat split.
  - done.
Qed.

Lemma sos_without_available_driver_witness :
  let st := (run one_accept initial_state).1 in
  (patient_sos "p2" no_sos_data "e2" 2000 st).2
  = [ {| target := "p2"; payload := emergency_created "e2" Searching |};
      {| target := "p2"; payload := emergency_no_drivers "e2" |} ].
Proof.
  intros st.
  apply (sos_without_available_driver "p2" no_sos_data "e2" 2000 st).
  intros socketId l driver Hin Hd.
  apply list_elem_of_singleton in Hin as [= -> ->].
  vm_compute in Hd. injection Hd as <-. discriminate.
Defined.

(** ** The cancel operation *)

(** The ledger never holds a cancelled request: [patient:cancel] deletes
    the request in the handler that marks it. *)
Lemma ledger_not_cancelled st :
  reachable st →
  ∀ i emergency,
    JsMap.get i (emergencies st) = Some emergency →
    e_status emergency ≠ Cancelled.
Proof.
  induction 1 as [|st ev _ IH _]; [done|].
  intros i emergency. rewrite handle_emergencies.
  destruct ev as [s d u|s loc0|s j|s j|s d u n|s j|s d u|s d|s];
    try apply IH.
  - destruct (accept_guard s j st) as [[[l d] e]|]; [|apply IH].
    destruct (decide (j = i)) as [->|Hne].
    + rewrite get_set_eq. by intros [= <-].
    + rewrite get_set_ne by done. apply IH.
  - destruct (decide (u = i)) as [->|Hne].
    + rewrite get_set_eq. by intros [= <-].
    + rewrite get_set_ne by done. apply IH.
  - rewrite patient_cancel_emergencies.
    destruct (JsMap.get j (emergencies st)) as [e|]; [|apply IH].
    destruct (decide (patientSocketId e = s)); [|apply IH].
    destruct (decide (j = i)) as [->|Hne].
    + by rewrite get_delete_eq.
    + rewrite get_delete_ne by done. apply IH.
Qed.


(** C7.  A [patient:cancel] from the owner of a request removes the
    request from the ledger and leaves the registry and the hospitals as
    they are; without an assigned driver nothing is emitted and no driver
    object changes; with an assigned driver, [emergency:cancelled] goes to
    the socket of the assigned driver and to nobody else, the driver
    registered under that socket (if the socket still has one) is
    [available] afterwards, and if that driver is the assigned object
    itself, it is the same object with status [available].  A cancel that
    names an id the ledger does not hold changes nothing and emits
    nothing; so does a cancel repeated after itself; and a cancelled
    request is such an id, since the ledger of a reachable state holds no
    request with status ['cancelled'].  The handler is a total function:
    no case raises. *)
Theorem cancel_releases_and_is_idempotent (socket : SocketId)
    (emergencyId : string) (st : State) :
  let st' := (patient_cancel socket emergencyId st).1 in
  let out := (patient_cancel socket emergencyId st).2 in
  (∀ emergency,
     JsMap.get emergencyId (emergencies st) = Some emergency →
     patientSocketId emergency = socket →
     JsMap.get emergencyId (emergencies st') = None
     ∧ drivers st' = drivers st
     ∧ hospitals st' = hospitals st
     ∧ (assignedDriver emergency = None → out = [] ∧ heap st' = heap st)
     ∧ (∀ a assigned,
          assignedDriver emergency = Some a →
          heap st !! a = Some assigned →
          out = [ {| target := d_socketId assigned;
                     payload := emergency_cancelled emergencyId |} ]
          ∧ (∀ l driver,
               JsMap.get (d_socketId assigned) (drivers st') = Some l →
               heap st' !! l = Some driver →
               d_status driver = Available)
          ∧ (JsMap.get (d_socketId assigned) (drivers st) = Some a →
             heap st' !! a = Some (set_d_status Available assigned))))
  ∧ (JsMap.get emergencyId (emergencies st) = None →
     patient_cancel socket emergencyId st = (st, []))
  ∧ patient_cancel socket emergencyId st' = (st', [])
  ∧ (reachable st →
     ∀ emergency,
       JsMap.get emergencyId (emergencies st) = Some emergency →
       e_status emergency ≠ Cancelled).
Proof.
  intros st' out. subst st' out. split; [|split; [|split]]; cycle 3.
  { intros Hst emergency. by apply ledger_not_cancelled. }
  - intros emergency Hget Hown.
    rewrite (patient_cancel_owner _ _ _ _ Hget Hown); simpl.
    destruct (release_driver_frame emergencyId emergency st)
      as (Hdr & _ & Hhos).
    split; [apply get_delete_eq|]. do 2 (split; [done|]). split.
    + intros Hnone. unfold release_driver. by rewrite Hnone.
    + intros a assigned Ha Hassigned. split; [|split].
      * unfold release_driver. rewrite Ha, Hassigned.
        by destruct (driver_of st (d_socketId assigned)) as [[??]|].
      * intros l driver.
        by apply (release_driver_available emergencyId emergency st a).
      * intros Hreg. unfold release_driver. rewrite Ha, Hassigned.
        assert (driver_of st (d_socketId assigned) = Some (a, assigned))
          as -> by by apply driver_of_Some.
        simpl. apply list_lookup_insert_eq. by eapply lookup_lt_Some.
  - apply patient_cancel_unknown.
  - destruct (JsMap.get emergencyId (emergencies st)) as [e|] eqn:Hget.
    + destruct (decide (patientSocketId e = socket)) as [Hown|Hown].
      * apply patient_cancel_unknown.
        rewrite (patient_cancel_owner _ _ _ _ Hget Hown); simpl.
        apply get_delete_eq.
      * rewrite (patient_cancel_other _ _ _ _ Hget Hown); simpl.
        by apply (patient_cancel_other _ _ _ e).
    + rewrite (patient_cancel_unknown _ _ _ Hget); simpl.
      by apply patient_cancel_unknown.
Qed.

Lemma cancel_releases_and_is_idempotent_witness :
  let st := (run one_accept initial_state).1 in
  let st' := (patient_cancel "p1" "e1" st).1 in
  JsMap.get "e1" (emergencies st') = None
  ∧ (patient_cancel "p1" "e1" st).2
    = [ {| target := "d1"; payload := emergency_cancelled "e1" |} ]
  ∧ (d_status <$> heap st' !! 0) = Some Available
  ∧ patient_cancel "p1" "unknown" st = (st, [])
  ∧ patient_cancel "p1" "e1" st' = (st', []).
Proof.
  intros st st'. subst st'.
  destruct (cancel_releases_and_is_idempotent "p1" "e1" st)
    as (Hown & _ & Hagain & _).
  destruct (cancel_releases_and_is_idempotent "p1" "unknown" st)
    as (_ & Hunknown & _).
  assert (∃ e, JsMap.get "e1" (emergencies st) = Some e
               ∧ patientSocketId e = "p1" ∧ assignedDriver e = Some 0)
    as (e & He & Howner & Hasg) by (eexists; repeat split; reflexivity).
  assert (∃ d, heap st !! 0 = Some d ∧ d_socketId d = "d1")
    as (d & Hd & Hsock) by (eexists; split; reflexivity).
  destruct (Hown e He Howner) as (Hgone & _ & _ & _ & Hassigned).
  destruct (Hassigned 0 d Hasg Hd) as (Hout & _ & Hsame).
  rewrite Hsock in Hout, Hsame.
  split; [exact Hgone|]. split; [exact Hout|].
  split; [by rewrite (Hsame eq_refl)|].
  split; [by apply Hunknown | exact Hagain].
Defined.

(** C10.  A [patient:cancel] that names a request of the ledger owned by
    another socket than the sender returns the state as it is (the request
    with its status and assigned driver, the ledger, every driver object)
    and emits nothing. *)
Theorem cancel_by_other_connection_is_noop (socket : SocketId)
    (emergencyId : string) (st : State) (emergency : Emergency) :
  JsMap.get emergencyId (emergencies st) = Some emergency →
  patientSocketId emergency ≠ socket →
  patient_cancel socket emergencyId st = (st, []).
Proof.
  intros Hget Hown. unfold patient_cancel. rewrite Hget.
  destruct (decide (patientSocketId emergency = socket)); [done|].
  reflexivity.
Qed.

Lemma cancel_by_other_connection_is_noop_witness :
  let st := (run one_accept initial_state).1 in
  patient_cancel "p2" "e1" st = (st, []).
Proof.
  intros st.
  eapply (cancel_by_other_connection_is_noop "p2" "e1" st);
    [reflexivity | discriminate].
Defined.

(** ** Events with missing fields *)

(** C8, as stated, fails: a [driver:register] without any field is
    accepted, registers a driver and is acknowledged with
    [success: true]. *)
Lemma missing_fields_rejected_fails :
  ¬ (∀ socket data uuid st,
       rd_name data = None ∨ rd_vehicle data = None
       ∨ rd_location data = None →
       (driver_register socket data uuid st).1 = st
       ∧ ∀ m driver,
           m ∈ (driver_register socket data uuid st).2 →
           payload m ≠ driver_registered true driver).
Proof.
  intros Hclaim.
  destruct (Hclaim "d1" no_register_data "u1" initial_state
              (or_introl eq_refl)) as [Hst _].
  discriminate Hst.
Qed.

(** C8, amended.  A registration or a new request with missing fields is
    accepted with defaults in their place.  [driver:register] stores a new
    [available] driver object under the socket and acknowledges it to the
    sending socket only with [success: true]; a missing name is
    ['Unknown Driver'], a missing vehicle ['MH-XX-XXXX'], a missing
    location Mumbai.  [patient:sos] enters the request in the ledger as
    ['searching'] and first acknowledges it to the sending socket with
    [emergency:created]; a missing location is the Mumbai point with
    address ['Unknown Location'], a missing severity ['high'], a missing
    type ['accident']. *)
Theorem missing_fields_get_defaults (socket : SocketId) (uuid : string)
    (now : Z) (st : State) (rdata : DriverRegisterData) (sdata : SosData) :
  (∃ driver,
     (driver_register socket rdata uuid st).2
     = [ {| target := socket; payload := driver_registered true driver |} ]
     ∧ driver_of (driver_register socket rdata uuid st).1 socket
       = Some (length (heap st), driver)
     ∧ d_status driver = Available
     ∧ (rd_name rdata = None → d_name driver = "Unknown Driver")
     ∧ (rd_vehicle rdata = None → d_vehicle driver = "MH-XX-XXXX")
     ∧ (rd_location rdata = None → d_location driver = mumbai))
  ∧ (∃ emergency rest,
       (patient_sos socket sdata uuid now st).2
       = {| target := socket; payload := emergency_created uuid Searching |}
         :: rest
       ∧ JsMap.get uuid (emergencies (patient_sos socket sdata uuid now st).1)
         = Some emergency
       ∧ e_status emergency = Searching
       ∧ (sd_location sdata = None →
          e_location emergency = unknown_location)
       ∧ (sd_severity sdata = None → severity emergency = "high")
       ∧ (sd_type sdata = None → e_type emergency = "accident")).
Proof.
  split.
  - eexists. split; [reflexivity|]. split.
    + apply driver_of_Some; simpl. split; [apply get_set_eq|].
      by apply list_lookup_middle.
    + simpl. repeat split; by intros ->.
  - do 2 eexists. split; [reflexivity|]. split; [apply get_set_eq|].
    simpl. repeat split; by intros ->.
Qed.

Lemma missing_fields_get_defaults_witness :
  (driver_register "d1" no_register_data "u1" initial_state).2
  = [ {| target := "d1";
         payload := driver_registered true
           {| d_id := "u1"; d_socketId := "d1"; d_name := "Unknown Driver";
              d_vehicle := "MH-XX-XXXX"; d_location := mumbai;
              d_status := Available |} |} ]
  ∧ (severity <$>
       JsMap.get "e1"
         (emergencies (patient_sos "p1" no_sos_data "e1" 0 initial_state).1))
    = Some "high".
Proof.
  destruct (missing_fields_get_defaults "d1" "u1" 0 initial_state
              no_register_data no_sos_data)
    as [(driver & Hout & _ & Hav & Hname & Hveh & Hloc) _].
  destruct (missing_fields_get_defaults "p1" "e1" 0 initial_state
              no_register_data no_sos_data)
    as [_ (e & rest & _ & Hget & _ & _ & Hsev & _)].
  split.
  - rewrite Hout. injection Hout as <-. reflexivity.
  - rewrite Hget. simpl. by rewrite (Hsev eq_refl).
Defined.

(** ** More scenarios, run on the handlers *)

(** Scenario 2: two responders accept the same request; the first one
    processed is confirmed and assigned, the other gets nothing. *)
Example scenario_two_accepts :
  let st := (run open_request_two_drivers initial_state).1 in
  let first := driver_accept "d2" "e1" st in
  let second := driver_accept "d1" "e1" first.1 in
  (target <$> first.2) = ["p1"; "d2"]
  ∧ second = (first.1, [])
  ∧ (assignedDriver <$> JsMap.get "e1" (emergencies second.1))
    = Some (Some 1).
Proof. repeat split; reflexivity. Qed.

(** Scenario 3: a request without any registered responder. *)
Example scenario_no_responders :
  let r := patient_sos "p1" chest_pain "e1" 1000 initial_state in
  r.2 = [ {| target := "p1"; payload := emergency_created "e1" Searching |};
          {| target := "p1"; payload := emergency_no_drivers "e1" |} ]
  ∧ (e_status <$> JsMap.get "e1" (emergencies r.1)) = Some Searching.
Proof. split; reflexivity. Qed.

(** Scenario 4 on the code: the requester disconnects, the request stays
    open, and a late accept commits. *)
Example scenario_disconnect_then_accept :
  let st := (run (open_request ++ [Disconnect "p1"]) initial_state).1 in
  (e_status <$> JsMap.get "e1" (emergencies st)) = Some Searching
  ∧ (e_status <$>
       JsMap.get "e1" (emergencies (driver_accept "d1" "e1" st).1))
    = Some Accepted.
Proof. split; reflexivity. Qed.

(** Scenario 5: a cancel after the match frees the responder, and a
    following request is offered to it again. *)
Example scenario_cancel_frees_responder :
  let st := (run (one_accept ++ [PatientCancel "p1" "e1"]) initial_state).1 in
  (d_status <$> (snd <$> driver_of st "d1")) = Some Available
  ∧ (target <$> (patient_sos "p2" no_sos_data "e2" 2000 st).2)
    = ["p2"; "d1"].
Proof. split; reflexivity. Qed.

(** * Further properties of the coordinator *)

(** ** More facts about [Map] *)

Section js_map_keys.
Context {K V : Type} `{EqDecision K}.
Implicit Types (k : K) (v : V) (m : list (K * V)).

Lemma get_Some_elem k v m : JsMap.get k m = Some v → (k, v) ∈ m.
Proof.
  induction m as [|[k' v'] m IH]; simpl; [done|].
  destruct (decide (k' = k)) as [->|Hne].
  - intros [= ->]. apply list_elem_of_here.
  - intros Hget. apply list_elem_of_further. by apply IH.
Qed.

Lemma elem_keys k v m : (k, v) ∈ m → k ∈ keys m.
Proof.
  intros Hin. unfold keys. apply (list_elem_of_fmap_2 fst) in Hin. exact Hin.
Qed.

Lemma elem_set k0 v0 k v m :
  (k, v) ∈ JsMap.set k0 v0 m → (k = k0 ∧ v = v0) ∨ (k ≠ k0 ∧ (k, v) ∈ m)
  ∨ (k, v) ∈ m.
Proof.
  induction m as [|[k' v'] m IH]; simpl.
  - intros [= -> ->]%list_elem_of_singleton. by left.
  - destruct (decide (k' = k0)) as [->|Hne].
    + intros [[= -> ->]|Hin]%elem_of_cons; [by left|].
      right; right. by apply list_elem_of_further.
    + intros [[= -> ->]|Hin]%elem_of_cons.
      * right; right. apply list_elem_of_here.
      * destruct (IH Hin) as [?|[[? ?]|?]]; [by left| |].
        -- right; left. split; [done|]. by apply list_elem_of_further.
        -- right; right. by apply list_elem_of_further.
Qed.

Lemma keys_set k0 v0 k m : k ∈ keys (JsMap.set k0 v0 m) → k = k0 ∨ k ∈ keys m.
Proof.
  unfold keys. intros ([k' v'] & -> & Hin)%list_elem_of_fmap_1.
  destruct (elem_set _ _ _ _ _ Hin) as [[? _]|[[_ Hm]|Hm]]; [by left|..];
    right; by apply (elem_keys _ v').
Qed.

Lemma elem_delete k0 k v m : (k, v) ∈ JsMap.delete k0 m → k ≠ k0 ∧ (k, v) ∈ m.
Proof.
  induction m as [|[k' v'] m IH]; simpl; [by intros ?%elem_of_nil|].
  destruct (decide (k' = k0)) as [->|Hne].
  - intros Hin. destruct (IH Hin). split; [done|].
    by apply list_elem_of_further.
  - intros [[= -> ->]|Hin]%elem_of_cons.
    + split; [done | apply list_elem_of_here].
    + destruct (IH Hin). split; [done|]. by apply list_elem_of_further.
Qed.

Lemma keys_delete k0 k m : k ∈ keys (JsMap.delete k0 m) → k ≠ k0 ∧ k ∈ keys m.
Proof.
  unfold keys. intros ([k' v'] & -> & Hin)%list_elem_of_fmap_1.
  destruct (elem_delete _ _ _ _ Hin). split; [done|].
  by apply (elem_keys _ v').
Qed.

End js_map_keys.

(** ** The store of driver objects *)

Lemma same_identity_refl d : same_identity d d.
Proof. by repeat split. Qed.

Lemma same_identity_trans d1 d2 d3 :
  same_identity d1 d2 → same_identity d2 d3 → same_identity d1 d3.
Proof. intros (?&?&?&?) (?&?&?&?). repeat split; congruence. Qed.

(** What a handler does to the store: nothing, one new object at the end,
    or one object rewritten in its mutable fields. *)
Lemma handle_heap_cases ev st :
  heap (handle ev st).1 = heap st
  ∨ (∃ socket data uuid,
       ev = DriverRegister socket data uuid
       ∧ heap (handle ev st).1
         = (heap st
            ++ [ {| d_id := uuid; d_socketId := socket;
                    d_name := or_string (rd_name data) "Unknown Driver";
                    d_vehicle := or_string (rd_vehicle data) "MH-XX-XXXX";
                    d_location := or_location (rd_location data) mumbai;
                    d_status := Available |} ])%list)
  ∨ (∃ l old new,
       heap st !! l = Some old
       ∧ heap (handle ev st).1 = <[l := new]> (heap st)
       ∧ same_identity old new).
Proof.
  destruct ev as [s d u|s loc0|s i|s i|s d u n|s i|s d u|s d|s];
    cbn [handle].
  - right; left. by exists s, d, u.
  - unfold driver_update_location.
    destruct (driver_of st s) as [[l old]|] eqn:Hd; [|by left].
    apply driver_of_Some in Hd as [_ Hold].
    right; right. exists l, old, (set_d_location loc0 old).
    by repeat split.
  - unfold driver_accept.
    destruct (accept_guard s i st) as [[[l old] e]|] eqn:Hg; [|by left].
    apply accept_guard_Some in Hg as ((_ & Hold)%driver_of_Some & _).
    right; right. exists l, old, (set_d_status Busy old). by repeat split.
  - unfold driver_reject.
    destruct (JsMap.get i (emergencies st)); by left.
  - by left.
  - destruct (JsMap.get i (emergencies st)) as [e|] eqn:Hget;
      [|left; by rewrite patient_cancel_unknown].
    destruct (decide (patientSocketId e = s)) as [Hown|Hown];
      [|left; by erewrite patient_cancel_other].
    erewrite patient_cancel_owner by done. simpl. unfold release_driver.
    destruct (assignedDriver e) as [a|]; [|by left].
    destruct (heap st !! a) as [assigned|]; [|by left].
    destruct (driver_of st (d_socketId assigned)) as [[l old]|] eqn:Hd;
      [|by left].
    apply driver_of_Some in Hd as [_ Hold].
    right; right. exists l, old, (set_d_status Available old).
    by repeat split.
  - by left.
  - unfold hospital_update_beds.
    destruct (JsMap.get s (hospitals st)); by left.
  - left. apply disconnect_heap.
Qed.

Lemma handle_heap_lookup ev st l d :
  heap st !! l = Some d →
  ∃ d', heap (handle ev st).1 !! l = Some d' ∧ same_identity d d'.
Proof.
  intros Hd.
  destruct (handle_heap_cases ev st)
    as [->|[(s0 & d0 & u0 & _ & ->)|(l0 & old & new & Hold & -> & Hid)]].
  - exists d. split; [done | apply same_identity_refl].
  - exists d. split; [by apply lookup_app_l_Some | apply same_identity_refl].
  - destruct (decide (l0 = l)) as [->|Hne].
    + exists new. rewrite list_lookup_insert_eq by by eapply lookup_lt_Some.
      split; [done|]. congruence.
    + exists d. rewrite list_lookup_insert_ne by done.
      split; [done | apply same_identity_refl].
Qed.

(** X3.  No sequence of events changes the [id], [socketId], [name] or
    [vehicle] of a driver object, and no driver object ever leaves the
    store: [driver:update-location], [driver:accept] and [patient:cancel]
    rewrite [location] and [status] only, and a new registration makes a
    new object. *)
Theorem driver_identity_is_immutable (evs : list Event) (st : State)
    (l : loc) (d : Driver) :
  heap st !! l = Some d →
  ∃ d', heap (run evs st).1 !! l = Some d'
        ∧ d_id d' = d_id d ∧ d_socketId d' = d_socketId d
        ∧ d_name d' = d_name d ∧ d_vehicle d' = d_vehicle d.
Proof.
  revert st d. induction evs as [|ev evs IH]; intros st d Hd.
  - exists d. by repeat split.
  - destruct (handle_heap_lookup ev st l d Hd) as (d1 & Hd1 & Hid1).
    simpl. destruct (handle ev st) as [st1 out1]. simpl in Hd1.
    destruct (IH st1 d1 Hd1) as (d2 & Hd2 & Hid2).
    destruct (run evs st1) as [st2 out2]. simpl in *.
    exists d2. split; [done|].
    apply (same_identity_trans d d1 d2); [done | exact Hid2].
Qed.

Lemma driver_identity_is_immutable_witness :
  let st := (run one_accept initial_state).1 in
  let evs := [ DriverUpdateLocation "d1" unknown_location;
               PatientCancel "p1" "e1";
               DriverRegister "d1" asha "u3";
               Disconnect "d1" ] in
  (d_name <$> heap (run evs st).1 !! 0) = Some "Ravi"
  ∧ (d_socketId <$> heap (run evs st).1 !! 0) = Some "d1".
Proof.
  intros st evs.
  assert (∃ d, heap st !! 0 = Some d ∧ d_name d = "Ravi"
               ∧ d_socketId d = "d1")
    as (d & Hd & Hname & Hsock) by (eexists; repeat split; reflexivity).
  destruct (driver_identity_is_immutable evs st 0 d Hd)
    as (d' & -> & _ & Hs & Hn & _).
  simpl. by rewrite Hs, Hn, Hname, Hsock.
Defined.

(** ** Invariants of the ledger and of the registry *)

Lemma request_ok_handle ev st i e :
  request_ok st i e → request_ok (handle ev st).1 i e.
Proof.
  intros [Hid [Hs|(Hacc & l & d & Hasg & Hd)]]; split; try done;
    [by left|].
  right. split; [done|].
  destruct (handle_heap_lookup ev st l d Hd) as (d' & Hd' & _).
  by exists l, d'.
Qed.

Lemma reachable_request_ok st :
  reachable st →
  ∀ i e, JsMap.get i (emergencies st) = Some e → request_ok st i e.
Proof.
  induction 1 as [|st ev _ IH _]; [done|].
  intros i e. rewrite handle_emergencies.
  destruct ev as [s d u|s loc0|s j|s j|s d u n|s j|s d u|s d|s];
    try (intros Hget; apply request_ok_handle; by apply IH).
  - destruct (accept_guard s j st) as [[[l d] e0]|] eqn:Hg;
      [|intros Hget; apply request_ok_handle; by apply IH].
    pose proof Hg as ((_ & Hd)%driver_of_Some & He0 & _)%accept_guard_Some.
    destruct (decide (j = i)) as [->|Hne].
    + rewrite get_set_eq. intros [= <-].
      destruct (IH _ _ He0) as [Hid _]. split; [done|]. right.
      split; [done|].
      destruct (handle_heap_lookup (DriverAccept s i) st l d Hd)
        as (d' & Hd' & _).
      by exists l, d'.
    + rewrite get_set_ne by done.
      intros Hget; apply request_ok_handle; by apply IH.
  - destruct (decide (u = i)) as [->|Hne].
    + rewrite get_set_eq. intros [= <-]. split; [done|]. by left.
    + rewrite get_set_ne by done.
      intros Hget; apply request_ok_handle; by apply IH.
  - rewrite patient_cancel_emergencies.
    destruct (JsMap.get j (emergencies st)) as [e0|];
      [|intros Hget; apply request_ok_handle; by apply IH].
    destruct (decide (patientSocketId e0 = s));
      [|intros Hget; apply request_ok_handle; by apply IH].
    destruct (decide (j = i)) as [->|Hne]; [by rewrite get_delete_eq|].
    rewrite get_delete_ne by done.
    intros Hget; apply request_ok_handle; by apply IH.
Qed.

(** X1.  In every reachable state, a request of the ledger carries the key
    it is stored under as its [id], and it is either ['searching'] with
    [assignedDriver] null, or ['accepted'] with [assignedDriver] a driver
    object of the store: the assigned driver is non-null exactly when the
    request is accepted. *)
Theorem ledger_invariant (st : State) (i : string) (e : Emergency) :
  reachable st →
  JsMap.get i (emergencies st) = Some e →
  e_id e = i
  ∧ ((e_status e = Searching ∧ assignedDriver e = None)
     ∨ (e_status e = Accepted
        ∧ ∃ l d, assignedDriver e = Some l ∧ heap st !! l = Some d)).
Proof. intros Hst Hget. by apply reachable_request_ok. Qed.

Lemma ledger_invariant_witness :
  let st := (run two_accepts_one_driver initial_state).1 in
  (e_id <$> JsMap.get "e2" (emergencies st)) = Some "e2"
  ∧ (e_status <$> JsMap.get "e2" (emergencies st)) = Some Accepted.
Proof.
  intros st.
  assert (reachable st) as Hst
    by (apply reachable_run; [constructor | reflexivity]).
  assert (∃ e, JsMap.get "e2" (emergencies st) = Some e
               ∧ assignedDriver e = Some 0)
    as (e & He & Hasg) by (eexists; split; reflexivity).
  destruct (ledger_invariant st "e2" e Hst He)
    as [Hid [[_ Hnone]|[Hacc _]]]; [congruence|].
  rewrite He. simpl. by rewrite Hid, Hacc.
Defined.

Lemma disconnect_hospitals socket st :
  hospitals (disconnect socket st).1 = JsMap.delete socket (hospitals st).
Proof.
  unfold disconnect; simpl.
  rewrite <- (delete_if_has socket (hospitals st)).
  by destruct (JsMap.has socket (drivers st)), (JsMap.has socket _).
Qed.

Lemma handle_hospitals ev st socket h :
  JsMap.get socket (hospitals (handle ev st).1) = Some h →
  (h_socketId h = socket
   ∧ ∃ data, h_name h = or_string (hd_name data) "City Hospital")
  ∨ (∃ h0, JsMap.get socket (hospitals st) = Some h0
           ∧ h_socketId h = h_socketId h0 ∧ h_name h = h_name h0).
Proof.
  destruct ev as [s d u|s loc0|s i|s i|s d u n|s i|s d u|s d|s];
    cbn [handle].
  - simpl. intros Hget. right. by exists h.
  - unfold driver_update_location.
    destruct (driver_of st s) as [[??]|]; intros Hget; right; by exists h.
  - unfold driver_accept.
    destruct (accept_guard s i st) as [[[??]?]|]; intros Hget; right;
      by exists h.
  - unfold driver_reject.
    destruct (JsMap.get i (emergencies st)); intros Hget; right; by exists h.
  - simpl. intros Hget. right. by exists h.
  - destruct (JsMap.get i (emergencies st)) as [e|] eqn:Hi;
      [|rewrite patient_cancel_unknown by done; intros Hget; right;
        by exists h].
    destruct (decide (patientSocketId e = s)) as [Hown|Hown];
      [|erewrite patient_cancel_other by done; intros Hget; right;
        by exists h].
    erewrite patient_cancel_owner by done. simpl.
    destruct (release_driver_frame i e st) as (_ & _ & ->).
    intros Hget. right. by exists h.
  - simpl. destruct (decide (s = socket)) as [->|Hne].
    + rewrite get_set_eq. intros [= <-]. left. split; [done|]. by exists d.
    + rewrite get_set_ne by done. intros Hget. right. by exists h.
  - unfold hospital_update_beds.
    destruct (JsMap.get s (hospitals st)) as [h0|] eqn:Hs;
      [|intros Hget; right; by exists h].
    simpl. destruct (decide (s = socket)) as [->|Hne].
    + rewrite get_set_eq. intros [= <-]. right. by exists h0.
    + rewrite get_set_ne by done. intros Hget. right. by exists h.
  - rewrite disconnect_hospitals.
    destruct (decide (s = socket)) as [->|Hne].
    + by rewrite get_delete_eq.
    + rewrite get_delete_ne by done. intros Hget. right. by exists h.
Qed.

(** X2.  In every reachable state, the driver object registered under a
    socket exists in the store and carries that socket in its [socketId],
    so two sockets never share a driver object; and the hospital
    registered under a socket carries that socket in its [socketId]. *)
Theorem registry_invariant (st : State) :
  reachable st →
  (∀ socket l,
     JsMap.get socket (drivers st) = Some l →
     ∃ driver,
       heap st !! l = Some driver ∧ d_socketId driver = socket
       ∧ ∀ socket', JsMap.get socket' (drivers st) = Some l →
                    socket' = socket)
  ∧ (∀ socket hospital,
       JsMap.get socket (hospitals st) = Some hospital →
       h_socketId hospital = socket).
Proof.
  intros Hst. split.
  - intros socket l Hl.
    destruct (reachable_wf st Hst _ _ Hl) as (d & Hd & Hs).
    exists d. repeat split; try done.
    intros socket' Hl'.
    destruct (reachable_wf st Hst _ _ Hl') as (d' & Hd' & Hs').
    congruence.
  - induction Hst as [|st ev _ IH _]; [done|].
    intros socket h Hget.
    destruct (handle_hospitals ev st socket h Hget)
      as [[? _]|(h0 & Hh0 & Hs & _)]; [done|].
    rewrite Hs. by apply IH.
Qed.

Lemma registry_invariant_witness :
  let st := (run accept_then_register_again initial_state).1 in
  (d_socketId <$> heap st !! 1) = Some "d1".
Proof.
  intros st.
  assert (reachable st) as Hst
    by (apply reachable_run; [constructor | reflexivity]).
  destruct (registry_invariant st Hst) as [Hdr _].
  destruct (Hdr "d1" 1 eq_refl) as (d & Hd & Hs & _).
  rewrite Hd. simpl. by rewrite Hs.
Defined.

(** ** Round trips *)

(** X4.  A request that its owner cancels before anything else happens
    leaves no trace: when [uuidv4()] returned an id the ledger did not
    hold, the state after [patient:sos] and [patient:cancel] is the state
    before the request, and the cancel emits nothing. *)
Theorem sos_then_cancel_restores (socket : SocketId) (data : SosData)
    (uuid : string) (now : Z) (st : State) :
  JsMap.get uuid (emergencies st) = None →
  patient_cancel socket uuid (patient_sos socket data uuid now st).1
  = (st, []).
Proof.
  intros Hfresh. unfold patient_sos; simpl.
  erewrite patient_cancel_owner; [|simpl; apply get_set_eq|done].
  unfold release_driver; simpl.
  rewrite delete_set, delete_absent by done.
  by destruct st.
Qed.

Lemma sos_then_cancel_restores_witness :
  let st := (run one_accept initial_state).1 in
  patient_cancel "p2" "e2" (patient_sos "p2" chest_pain "e2" 2000 st).1
  = (st, []).
Proof.
  intros st.
  apply (sos_then_cancel_restores "p2" chest_pain "e2" 2000 st).
  reflexivity.
Defined.

(** X5.  An accept by an available responder followed by the owner's cancel
    undoes the accept: in a reachable state, the store of driver objects
    and the registry are what they were before the accept (the responder
    is [available] again), the request is gone from the ledger, and the
    one message of the cancel is [emergency:cancelled] to the responder's
    socket. *)
Theorem accept_then_cancel_restores (socket : SocketId)
    (emergencyId : string) (st : State) (l : loc) (driver : Driver)
    (emergency : Emergency) :
  reachable st →
  accept_guard socket emergencyId st = Some (l, driver, emergency) →
  d_status driver = Available →
  patient_cancel (patientSocketId emergency) emergencyId
    (driver_accept socket emergencyId st).1
  = (set_emergencies (JsMap.delete emergencyId (emergencies st)) st,
     [ {| target := socket; payload := emergency_cancelled emergencyId |} ]).
Proof.
  intros Hst Hg Hav.
  pose proof Hg as ((Hl & Hd)%driver_of_Some & He & Hs)%accept_guard_Some.
  destruct (reachable_wf st Hst _ _ Hl) as (d0 & Hd0 & Hsock).
  assert (d0 = driver) as -> by congruence.
  assert (l < length (heap st))%nat as Hlt by by eapply lookup_lt_Some.
  unfold driver_accept. rewrite Hg; simpl.
  erewrite patient_cancel_owner; [|simpl; apply get_set_eq|done].
  unfold release_driver, driver_of; simpl.
  rewrite list_lookup_insert_eq by done; simpl.
  rewrite Hsock, Hl, list_lookup_insert_eq by done; simpl.
  rewrite delete_set, list_insert_insert_eq.
  replace (set_d_status Available (set_d_status Busy driver)) with driver
    by (rewrite <- Hav; by destruct driver).
  rewrite list_insert_id by done.
  by destruct st.
Qed.

Lemma accept_then_cancel_restores_witness :
  let st := (run open_request initial_state).1 in
  patient_cancel "p1" "e1" (driver_accept "d1" "e1" st).1
  = (set_emergencies [] st,
     [ {| target := "d1"; payload := emergency_cancelled "e1" |} ]).
Proof.
  intros st.
  assert (reachable st) as Hst
    by (apply reachable_run; [constructor | reflexivity]).
  assert (∃ l d e, accept_guard "d1" "e1" st = Some (l, d, e)
                   ∧ d_status d = Available ∧ patientSocketId e = "p1")
    as (l & d & e & Hg & Hav & Hown)
    by (do 3 eexists; repeat split; reflexivity).
  pose proof (accept_then_cancel_restores "d1" "e1" st l d e Hst Hg Hav)
    as Hround.
  rewrite Hown in Hround. exact Hround.
Defined.

(** ** Who gets an offer *)

Lemma offers_inv h emergency ds m :
  m ∈ offers h emergency ds →
  ∃ socketId l driver,
    (socketId, l) ∈ ds ∧ h !! l = Some driver
    ∧ d_status driver = Available
    ∧ m = offer socketId driver emergency.
Proof.
  induction ds as [|[s0 l0] ds IH]; simpl; [by intros ?%elem_of_nil|].
  assert (m ∈ offers h emergency ds →
          ∃ socketId l driver,
            (socketId, l) ∈ (s0, l0) :: ds ∧ h !! l = Some driver
            ∧ d_status driver = Available
            ∧ m = offer socketId driver emergency) as Htail.
  { intros Hin. destruct (IH Hin) as (s & l & d & Hds & Hrest).
    exists s, l, d. split; [by apply list_elem_of_further | done]. }
  destruct (h !! l0) as [d0|] eqn:Hd0; [|done].
  destruct (decide (d_status d0 = Available)) as [Hav|]; [|done].
  intros [->|Hin]%elem_of_cons; [|by apply Htail].
  exists s0, l0, d0. split; [apply list_elem_of_here | done].
Qed.

Lemma broadcast_inv st emergency m :
  m ∈ broadcastToAvailableDrivers st emergency →
  (∃ socketId l driver,
     (socketId, l) ∈ drivers st ∧ heap st !! l = Some driver
     ∧ d_status driver = Available
     ∧ m = offer socketId driver emergency)
  ∨ (m = {| target := patientSocketId emergency;
            payload := emergency_no_drivers (e_id emergency) |}
     ∧ ∀ socketId l driver,
         (socketId, l) ∈ drivers st → heap st !! l = Some driver →
         d_status driver ≠ Available).
Proof.
  unfold broadcastToAvailableDrivers.
  destruct (offers (heap st) emergency (drivers st)) as [|m0 sent] eqn:Hoff;
    simpl.
  - intros ->%list_elem_of_singleton. right.
    split; [done|]. intros socketId l driver Hin Hd Hav.
    pose proof (offers_elem _ emergency _ _ _ _ Hin Hd Hav) as Hm.
    rewrite Hoff in Hm. by apply elem_of_nil in Hm.
  - intros Hm. left.
    apply (offers_inv (heap st) emergency (drivers st)). by rewrite Hoff.
Qed.

(** X6.  [broadcastToAvailableDrivers] always emits something, and every
    message it emits is either an offer to a socket of the registry whose
    driver is [available] (a [busy] driver never gets an offer), or the
    [emergency:no-drivers] notice to the owner of the request, which is
    sent only when no driver of the registry is available. *)
Theorem broadcast_reaches_available_drivers_only (st : State)
    (emergency : Emergency) :
  broadcastToAvailableDrivers st emergency ≠ []
  ∧ ∀ m, m ∈ broadcastToAvailableDrivers st emergency →
      (∃ socketId l driver,
         (socketId, l) ∈ drivers st ∧ heap st !! l = Some driver
         ∧ d_status driver = Available
         ∧ m = offer socketId driver emergency)
      ∨ (m = {| target := patientSocketId emergency;
                payload := emergency_no_drivers (e_id emergency) |}
         ∧ ∀ socketId l driver,
             (socketId, l) ∈ drivers st → heap st !! l = Some driver →
             d_status driver ≠ Available).
Proof.
  split; [|apply broadcast_inv].
  unfold broadcastToAvailableDrivers.
  by destruct (offers (heap st) emergency (drivers st)).
Qed.

Lemma broadcast_reaches_available_drivers_only_witness :
  let st := (run one_accept initial_state).1 in
  ∃ m, m ∈ broadcastToAvailableDrivers st
             {| e_id := "e2"; patientSocketId := "p2";
                e_location := unknown_location; severity := "high";
                e_type := "accident"; e_status := Searching;
                timestamp := 2000; assignedDriver := None |}
       ∧ payload m = emergency_no_drivers "e2".
Proof.
  intros st. eexists. split; [apply list_elem_of_here|].
  match goal with
  | |- payload ?m = _ =>
      destruct (proj2 (broadcast_reaches_available_drivers_only st
                  {| e_id := "e2"; patientSocketId := "p2";
                     e_location := unknown_location; severity := "high";
                     e_type := "accident"; e_status := Searching;
                     timestamp := 2000; assignedDriver := None |}) m
                  (list_elem_of_here _ _))
        as [(s & l & d & Hin & Hd & Hav & _)|[Hm _]]
  end.
  - apply list_elem_of_singleton in Hin as [= -> ->].
    vm_compute in Hd. injection Hd as <-. discriminate.
  - reflexivity.
Defined.

(** ** Disconnect *)

Lemma driver_of_disconnect socket other st :
  driver_of (disconnect socket st).1 other
  = if decide (socket = other) then None else driver_of st other.
Proof.
  unfold driver_of. rewrite disconnect_drivers, disconnect_heap.
  destruct (decide (socket = other)) as [->|Hne].
  - by rewrite get_delete_eq.
  - by rewrite get_delete_ne.
Qed.

(** X7.  After the [disconnect] of a socket the coordinator has forgotten
    it as a driver and as a hospital, and keeps every other socket's
    record: a second [disconnect] changes nothing, a following broadcast
    makes no offer to the socket, and a following accept sends it no
    [hospital:incoming-patient]. *)
Theorem disconnect_forgets_socket (socket : SocketId) (st : State) :
  let st' := (disconnect socket st).1 in
  driver_of st' socket = None
  ∧ JsMap.get socket (hospitals st') = None
  ∧ (∀ other, other ≠ socket →
       driver_of st' other = driver_of st other
       ∧ JsMap.get other (hospitals st') = JsMap.get other (hospitals st))
  ∧ disconnect socket st' = (st', [])
  ∧ (∀ emergency m,
       m ∈ broadcastToAvailableDrivers st' emergency →
       is_offer (payload m) = true → target m ≠ socket)
  ∧ (∀ emergencyId emergency driver m,
       m ∈ notify_hospitals emergencyId emergency driver (hospitals st') →
       target m ≠ socket).
Proof.
  intros st'. subst st'.
  pose proof (disconnect_drivers socket st) as Hdr.
  pose proof (disconnect_hospitals socket st) as Hhos.
  split; [by rewrite driver_of_disconnect, decide_True|].
  split; [rewrite Hhos; apply get_delete_eq|].
  split; [|split; [|split]].
  - intros other Hne. rewrite driver_of_disconnect, decide_False by done.
    by rewrite Hhos, get_delete_ne.
  - destruct (disconnect socket st) as [st' out] eqn:Hdis. simpl in *.
    unfold disconnect.
    assert (JsMap.has socket (drivers st') = false) as ->.
    { rewrite has_get, Hdr, get_delete_eq. by apply bool_decide_eq_false. }
    assert (JsMap.has socket (hospitals st') = false) as ->.
    { rewrite has_get, Hhos, get_delete_eq. by apply bool_decide_eq_false. }
    done.
  - intros emergency m Hm Hoffer.
    destruct (broadcast_inv _ _ _ Hm)
      as [(s & l & d & Hin & _ & _ & ->)|[-> _]]; [|done].
    simpl. rewrite Hdr in Hin. by destruct (elem_delete _ _ _ _ Hin).
  - intros emergencyId emergency driver m.
    unfold notify_hospitals.
    intros ([s h] & -> & Hin)%list_elem_of_fmap_1. simpl.
    rewrite Hhos in Hin. by destruct (elem_delete _ _ _ _ Hin).
Qed.

Lemma disconnect_forgets_socket_witness :
  let st := (run one_accept initial_state).1 in
  let st' := (disconnect "d1" st).1 in
  driver_of st' "d1" = None
  ∧ driver_of st' "p1" = driver_of st "p1"
  ∧ disconnect "d1" st' = (st', []).
Proof.
  intros st st'.
  destruct (disconnect_forgets_socket "d1" st)
    as (Hgone & _ & Hother & Hagain & _).
  split; [exact Hgone|]. split; [|exact Hagain].
  apply (Hother "p1"). discriminate.
Defined.

(** X8.  When the responder assigned to a request disconnects, the request
    stays in the ledger as it is and its requester is told nothing; a
    later cancel by the owner still removes the request and still sends
    [emergency:cancelled] to the socket of the gone responder, and it
    changes no driver object. *)
Theorem cancel_after_driver_disconnect (emergencyId : string) (st : State)
    (emergency : Emergency) (a : loc) (assigned : Driver) :
  JsMap.get emergencyId (emergencies st) = Some emergency →
  assignedDriver emergency = Some a →
  heap st !! a = Some assigned →
  let st1 := (disconnect (d_socketId assigned) st).1 in
  (disconnect (d_socketId assigned) st).2 = []
  ∧ JsMap.get emergencyId (emergencies st1) = Some emergency
  ∧ patient_cancel (patientSocketId emergency) emergencyId st1
    = (set_emergencies (JsMap.delete emergencyId (emergencies st)) st1,
       [ {| target := d_socketId assigned;
            payload := emergency_cancelled emergencyId |} ]).
Proof.
  intros Hget Hasg Ha st1. subst st1.
  pose proof (disconnect_emergencies (d_socketId assigned) st) as Hem.
  pose proof (disconnect_heap (d_socketId assigned) st) as Hheap.
  pose proof (driver_of_disconnect (d_socketId assigned)
                (d_socketId assigned) st) as Hgone.
  rewrite decide_True in Hgone by done.
  split; [done|].
  remember (disconnect (d_socketId assigned) st).1 as st1 eqn:Hst1.
  clear Hst1. split; [by rewrite Hem|].
  erewrite patient_cancel_owner; [|by rewrite Hem|done].
  unfold release_driver. rewrite Hasg, Hheap, Ha, Hgone.
  simpl. by rewrite Hem.
Qed.

Lemma cancel_after_driver_disconnect_witness :
  let st := (run one_accept initial_state).1 in
  let st1 := (disconnect "d1" st).1 in
  (e_status <$> JsMap.get "e1" (emergencies st1)) = Some Accepted
  ∧ (patient_cancel "p1" "e1" st1).2
    = [ {| target := "d1"; payload := emergency_cancelled "e1" |} ].
Proof.
  intros st st1.
  assert (∃ e d, JsMap.get "e1" (emergencies st) = Some e
                 ∧ assignedDriver e = Some 0 ∧ heap st !! 0 = Some d
                 ∧ d_socketId d = "d1" ∧ patientSocketId e = "p1"
                 ∧ e_status e = Accepted)
    as (e & d & He & Hasg & Hd & Hsock & Hown & Hacc)
    by (do 2 eexists; repeat split; reflexivity).
  destruct (cancel_after_driver_disconnect "e1" st e 0 d He Hasg Hd)
    as (_ & Hkept & Hcancel).
  rewrite Hsock, Hown in *. fold st1 in Hkept, Hcancel.
  split; [by rewrite Hkept; simpl; rewrite Hacc | by rewrite Hcancel].
Defined.

(** ** Registering again and moving *)

Lemma length_set_present {K V : Type} `{EqDecision K} (k : K) (v : V)
    (m : list (K * V)) :
  is_Some (JsMap.get k m) → length (JsMap.set k v m) = length m.
Proof.
  induction m as [|[k' v'] m IH]; simpl; [by intros [? ?]|].
  destruct (decide (k' = k)); [done|]. intros Hget. simpl. by rewrite IH.
Qed.

(** X9.  A [driver:register] on a socket that already has a driver makes
    a new [available] driver object for the socket and leaves the old
    object and the ledger as they are, so a request the old object
    accepted stays accepted by it while the socket is offered new requests
    again; the registry keeps one entry for the socket and every other
    socket's driver. *)
Theorem reregistration_resets_availability (socket : SocketId)
    (data : DriverRegisterData) (uuid : string) (st : State) (l : loc)
    (old : Driver) :
  reachable st →
  JsMap.get socket (drivers st) = Some l →
  heap st !! l = Some old →
  let st' := (driver_register socket data uuid st).1 in
  (∃ new,
     driver_of st' socket = Some (length (heap st), new)
     ∧ length (heap st) ≠ l
     ∧ d_status new = Available
     ∧ ∀ emergency,
         offer socket new emergency
         ∈ broadcastToAvailableDrivers st' emergency)
  ∧ heap st' !! l = Some old
  ∧ emergencies st' = emergencies st
  ∧ length (drivers st') = length (drivers st)
  ∧ (∀ other, other ≠ socket → driver_of st' other = driver_of st other).
Proof.
  intros Hst Hl Hold st'. subst st'.
  assert (l < length (heap st))%nat as Hlt by by eapply lookup_lt_Some.
  split; [|split; [|split; [|split]]].
  - eexists. split.
    { apply driver_of_Some; simpl. split; [apply get_set_eq|].
      by apply list_lookup_middle. }
    split; [lia|]. split; [reflexivity|].
    intros emergency. eapply broadcast_offers; simpl; [| |reflexivity].
    + apply get_Some_elem, get_set_eq.
    + by apply list_lookup_middle.
  - simpl. by apply lookup_app_l_Some.
  - done.
  - simpl. apply length_set_present. by exists l.
  - intros other Hne. unfold driver_of; simpl.
    rewrite get_set_ne by done.
    destruct (JsMap.get other (drivers st)) as [l'|] eqn:Hl'; [|done].
    destruct (reachable_wf st Hst _ _ Hl') as (d' & Hd' & _).
    by rewrite Hd', (lookup_app_l_Some _ _ _ _ Hd').
Qed.

Lemma reregistration_resets_availability_witness :
  let st := (run one_accept initial_state).1 in
  let st' := (driver_register "d1" asha "u3" st).1 in
  (d_status <$> heap st' !! 0) = Some Busy
  ∧ (e_status <$> JsMap.get "e1" (emergencies st')) = Some Accepted
  ∧ (d_status <$> (snd <$> driver_of st' "d1")) = Some Available.
Proof.
  intros st st'.
  assert (reachable st) as Hst
    by (apply reachable_run; [constructor | reflexivity]).
  assert (∃ d, heap st !! 0 = Some d ∧ d_status d = Busy)
    as (d & Hd & Hbusy) by (eexists; split; reflexivity).
  destruct (reregistration_resets_availability "d1" asha "u3" st 0 d Hst
              eq_refl Hd)
    as ((new & Hnew & _ & Hav & _) & Hold & Hem & _).
  fold st' in Hnew, Hold, Hem.
  split; [by rewrite Hold; simpl; rewrite Hbusy|].
  split; [by rewrite Hem | by rewrite Hnew; simpl; rewrite Hav].
Defined.

(** X10.  A [driver:update-location] from a socket with a driver rewrites
    the [location] of that one driver object and nothing else (the status,
    the other objects, the three maps stay, nothing is emitted), and the
    offers of a following broadcast carry the distance from the new
    location. *)
Theorem update_location_moves_driver (socket : SocketId)
    (location : Location) (st : State) (l : loc) (driver : Driver) :
  driver_of st socket = Some (l, driver) →
  let st' := (driver_update_location socket location st).1 in
  (driver_update_location socket location st).2 = []
  ∧ driver_of st' socket = Some (l, set_d_location location driver)
  ∧ drivers st' = drivers st
  ∧ emergencies st' = emergencies st
  ∧ hospitals st' = hospitals st
  ∧ (∀ l', l' ≠ l → heap st' !! l' = heap st !! l')
  ∧ (d_status driver = Available →
     ∀ emergency,
       {| target := socket;
          payload := emergency_new_request (e_id emergency)
            (e_location emergency) (severity emergency) (e_type emergency)
            (calculateDistance location (e_location emergency)) |}
       ∈ broadcastToAvailableDrivers st' emergency).
Proof.
  intros Hd st'. subst st'. unfold driver_update_location. rewrite Hd.
  apply driver_of_Some in Hd as [Hl Hdr]. simpl.
  assert (<[l:=set_d_location location driver]> (heap st) !! l
          = Some (set_d_location location driver)) as Hnew
    by (apply list_lookup_insert_eq; by eapply lookup_lt_Some).
  repeat split; try done.
  - by apply driver_of_Some.
  - intros l' Hne. by apply list_lookup_insert_ne.
  - intros Hav emergency.
    apply (broadcast_offers _ emergency socket l
             (set_d_location location driver)); simpl; [|done..].
    by apply get_Some_elem.
Qed.

Lemma update_location_moves_driver_witness :
  let st := (run open_request initial_state).1 in
  let st' := (driver_update_location "d1" unknown_location st).1 in
  (d_location <$> (snd <$> driver_of st' "d1")) = Some unknown_location
  ∧ emergencies st' = emergencies st.
Proof.
  intros st st'.
  assert (∃ d, driver_of st "d1" = Some (0, d))
    as (d & Hd) by (eexists; reflexivity).
  destruct (update_location_moves_driver "d1" unknown_location st 0 d Hd)
    as (_ & Hnew & _ & Hem & _).
  fold st' in Hnew, Hem. split; [by rewrite Hnew | exact Hem].
Defined.

(** ** Hospitals *)




(** ** Who is written to *)

(** X12.  Whatever the event and the state, every message a handler emits
    is addressed to a socket the coordinator has seen: the sender of the
    event, a socket of the registry or of the hospitals, the owner of a
    request of the ledger, or the socket of a driver object. *)
Theorem emits_only_to_known_sockets (ev : Event) (st : State) (m : Emit) :
  m ∈ (handle ev st).2 → known_socket st ev (target m).
Proof.
  unfold known_socket.
  destruct ev as [s d u|s loc0|s i|s i|s d u n|s i|s d u|s d|s];
    cbn [handle sender].
  - intros ->%list_elem_of_singleton. by left.
  - unfold driver_update_location.
    destruct (driver_of st s) as [[??]|]; by intros ?%elem_of_nil.
  - unfold driver_accept.
    destruct (accept_guard s i st) as [[[l d] e]|] eqn:Hg;
      [|by intros ?%elem_of_nil].
    apply accept_guard_Some in Hg as (_ & He & _). simpl.
    intros [->|[->|Hin]%elem_of_cons]%elem_of_cons; simpl.
    + do 3 right. left. by exists i, e.
    + by left.
    + unfold notify_hospitals in Hin.
      apply list_elem_of_fmap_1 in Hin as ([hs h] & -> & Hin). simpl.
      do 2 right. left. by apply (elem_keys _ h).
  - unfold driver_reject.
    destruct (JsMap.get i (emergencies st)) as [e|] eqn:He;
      [|by intros ?%elem_of_nil].
    simpl. intros [(hs & l & d0 & Hin & _ & _ & ->)|[-> _]]%broadcast_inv.
    + right; left. by apply (elem_keys _ l).
    + do 3 right. left. by exists i, e.
  - unfold patient_sos. cbn [snd].
    intros [->|[(hs & l & d0 & Hin & _ & _ & ->)|[-> _]]%broadcast_inv]
      %elem_of_cons.
    + by left.
    + right; left. by apply (elem_keys _ l).
    + by left.
  - destruct (JsMap.get i (emergencies st)) as [e|] eqn:He;
      [|rewrite patient_cancel_unknown by done; by intros ?%elem_of_nil].
    destruct (decide (patientSocketId e = s)) as [Hown|Hown];
      [|erewrite patient_cancel_other by done; by intros ?%elem_of_nil].
    erewrite patient_cancel_owner by done. cbn [snd].
    unfold release_driver.
    destruct (assignedDriver e) as [a|]; [|by intros ?%elem_of_nil].
    destruct (heap st !! a) as [assigned|] eqn:Ha;
      [|by intros ?%elem_of_nil].
    assert (m ∈ [ {| target := d_socketId assigned;
                     payload := emergency_cancelled i |} ] →
            ∃ l d, heap st !! l = Some d ∧ d_socketId d = target m) as Hout.
    { intros ->%list_elem_of_singleton. by exists a, assigned. }
    destruct (driver_of st (d_socketId assigned)) as [[??]|];
      intros Hin; do 4 right; by apply Hout.
  - intros ->%list_elem_of_singleton. by left.
  - unfold hospital_update_beds.
    destruct (JsMap.get s (hospitals st)); by intros ?%elem_of_nil.
  - by intros ?%elem_of_nil.
Qed.

Lemma emits_only_to_known_sockets_witness :
  let st := (run one_accept initial_state).1 in
  known_socket st (PatientCancel "p1" "e1") "d1".
Proof.
  intros st.
  apply (emits_only_to_known_sockets (PatientCancel "p1" "e1") st
           {| target := "d1"; payload := emergency_cancelled "e1" |}).
  apply list_elem_of_here.
Defined.

(** ** What changes a status *)

(** X13.  The [status] of a driver object changes in two ways only.  It
    becomes [busy] by a [driver:accept] for a ['searching'] request from
    the socket the object is registered under; it becomes [available] by a
    [patient:cancel] from the owner of a request whose assigned driver
    carries the socket the object is registered under.  No other event
    changes it. *)
Theorem status_changes_by_accept_and_cancel_only (ev : Event) (st : State)
    (l : loc) (d d' : Driver) :
  heap st !! l = Some d →
  heap (handle ev st).1 !! l = Some d' →
  d_status d' ≠ d_status d →
  (d_status d' = Busy
   ∧ ∃ socket i e,
       ev = DriverAccept socket i
       ∧ JsMap.get socket (drivers st) = Some l
       ∧ JsMap.get i (emergencies st) = Some e
       ∧ e_status e = Searching)
  ∨ (d_status d' = Available
     ∧ ∃ i e a assigned,
         ev = PatientCancel (patientSocketId e) i
         ∧ JsMap.get i (emergencies st) = Some e
         ∧ assignedDriver e = Some a
         ∧ heap st !! a = Some assigned
         ∧ JsMap.get (d_socketId assigned) (drivers st) = Some l).
Proof.
  intros Hd.
  destruct ev as [s r u|s loc0|s i|s i|s r u n|s i|s r u|s r|s];
    cbn [handle].
  - simpl. rewrite (lookup_app_l_Some _ _ _ _ Hd). by intros [= <-].
  - unfold driver_update_location.
    destruct (driver_of st s) as [[l0 old]|] eqn:Hd0;
      [|simpl; rewrite Hd; by intros [= <-]].
    apply driver_of_Some in Hd0 as [_ Hold]. simpl.
    destruct (decide (l0 = l)) as [->|Hne].
    + rewrite list_lookup_insert_eq by by eapply lookup_lt_Some.
      intros [= <-]. simpl. congruence.
    + rewrite list_lookup_insert_ne, Hd by done. by intros [= <-].
  - unfold driver_accept.
    destruct (accept_guard s i st) as [[[l0 old] e]|] eqn:Hg;
      [|simpl; rewrite Hd; by intros [= <-]].
    apply accept_guard_Some in Hg as ((Hl0 & Hold)%driver_of_Some & He & Hs).
    simpl. destruct (decide (l0 = l)) as [->|Hne].
    + rewrite list_lookup_insert_eq by by eapply lookup_lt_Some.
      intros [= <-] _. left. split; [done|]. by exists s, i, e.
    + rewrite list_lookup_insert_ne, Hd by done. by intros [= <-].
  - unfold driver_reject.
    destruct (JsMap.get i (emergencies st)); simpl; rewrite Hd;
      by intros [= <-].
  - simpl. rewrite Hd. by intros [= <-].
  - destruct (JsMap.get i (emergencies st)) as [e|] eqn:He;
      [|rewrite patient_cancel_unknown by done; simpl; rewrite Hd;
        by intros [= <-]].
    destruct (decide (patientSocketId e = s)) as [<-|Hown];
      [|erewrite patient_cancel_other by done; simpl; rewrite Hd;
        by intros [= <-]].
    erewrite patient_cancel_owner by done. simpl.
    intros Hd' Hne.
    destruct (release_driver_heap _ _ _ _ _ Hd')
      as [Hsame|(Hav & a & assigned & old & Ha & Hassigned & Hl & _)];
      [congruence|].
    right. split; [done|]. by exists i, e, a, assigned.
  - simpl. rewrite Hd. by intros [= <-].
  - unfold hospital_update_beds.
    destruct (JsMap.get s (hospitals st)); simpl; rewrite Hd;
      by intros [= <-].
  - rewrite disconnect_heap, Hd. by intros [= <-].
Qed.

Lemma status_changes_by_accept_and_cancel_only_witness :
  let st := (run open_request initial_state).1 in
  ∃ socket i, DriverAccept "d1" "e1" = DriverAccept socket i
              ∧ JsMap.get socket (drivers st) = Some 0.
Proof.
  intros st.
  assert (∃ d d', heap st !! 0 = Some d
            ∧ heap (handle (DriverAccept "d1" "e1") st).1 !! 0 = Some d'
            ∧ d_status d' ≠ d_status d ∧ d_status d' = Busy)
    as (d & d' & Hd & Hd' & Hne & Hbusy)
    by (do 2 eexists; split; [reflexivity|]; split; [reflexivity|];
        split; [discriminate | reflexivity]).
  destruct (status_changes_by_accept_and_cancel_only
              (DriverAccept "d1" "e1") st 0 d d' Hd Hd' Hne)
    as [(_ & socket & i & e & Hev & Hl & _)|(Hav & _)]; [|congruence].
  by exists socket, i.
Defined.

(** ** What never changes in a request *)

(** X14.  While [uuidv4()] does not return its id again, a request of the
    ledger keeps its [id], owner, [location], [severity], [type] and
    [timestamp] through every event, and it leaves the ledger by one event
    only: the [patient:cancel] of its id from its owner's socket. *)
Theorem request_fields_are_immutable (ev : Event) (st : State) (i : string)
    (e : Emergency) :
  creates i ev = false →
  JsMap.get i (emergencies st) = Some e →
  (∃ e', JsMap.get i (emergencies (handle ev st).1) = Some e'
         ∧ e_id e' = e_id e ∧ patientSocketId e' = patientSocketId e
         ∧ e_location e' = e_location e ∧ severity e' = severity e
         ∧ e_type e' = e_type e ∧ timestamp e' = timestamp e)
  ∨ (JsMap.get i (emergencies (handle ev st).1) = None
     ∧ ev = PatientCancel (patientSocketId e) i).
Proof.
  intros Hcr Hget. rewrite handle_emergencies.
  assert (∃ e', JsMap.get i (emergencies st) = Some e'
                ∧ e_id e' = e_id e ∧ patientSocketId e' = patientSocketId e
                ∧ e_location e' = e_location e ∧ severity e' = severity e
                ∧ e_type e' = e_type e ∧ timestamp e' = timestamp e)
    as Hsame by (exists e; by repeat split).
  destruct ev as [s r u|s loc0|s j|s j|s r u n|s j|s r u|s r|s];
    try (by left).
  - destruct (accept_guard s j st) as [[[l d] e0]|] eqn:Hg; [|by left].
    apply accept_guard_Some in Hg as (_ & He0 & _). left.
    destruct (decide (j = i)) as [->|Hne].
    + rewrite get_set_eq. eexists. split; [done|].
      assert (e0 = e) as -> by congruence. by repeat split.
    + by rewrite get_set_ne.
  - simpl in Hcr. apply bool_decide_eq_false in Hcr.
    left. by rewrite get_set_ne.
  - rewrite patient_cancel_emergencies.
    destruct (JsMap.get j (emergencies st)) as [e0|] eqn:He0; [|by left].
    destruct (decide (patientSocketId e0 = s)) as [<-|Hown]; [|by left].
    destruct (decide (j = i)) as [->|Hne].
    + right. rewrite get_delete_eq. split; [done|]. congruence.
    + left. by rewrite get_delete_ne.
Qed.

Lemma request_fields_are_immutable_witness :
  let st := (run open_request initial_state).1 in
  (patientSocketId <$>
     JsMap.get "e1" (emergencies (handle (DriverAccept "d1" "e1") st).1))
  = Some "p1".
Proof.
  intros st.
  assert (∃ e, JsMap.get "e1" (emergencies st) = Some e
               ∧ patientSocketId e = "p1")
    as (e & He & Hown) by (eexists; split; reflexivity).
  destruct (request_fields_are_immutable (DriverAccept "d1" "e1") st "e1" e
              eq_refl He)
    as [(e' & He' & _ & Hown' & _)|[_ Hev]]; [|discriminate Hev].
  rewrite He'. simpl. by rewrite Hown', Hown.
Defined.

(** ** No empty names *)

Lemma or_string_nonempty o d : d ≠ "" → or_string o d ≠ "".
Proof.
  intros Hd. unfold or_string. destruct o as [s|]; [|done].
  by destruct (decide (s = "")).
Qed.

(** X15.  In every reachable state no driver object has an empty [name]
    or [vehicle], no request of the ledger has an empty [severity] or
    [type], and no hospital has an empty [name]: an empty string in a
    payload is falsy and is replaced by the default like a missing
    field. *)
Theorem names_are_never_empty (st : State) :
  reachable st →
  (∀ l d, heap st !! l = Some d → d_name d ≠ "" ∧ d_vehicle d ≠ "")
  ∧ (∀ i e, JsMap.get i (emergencies st) = Some e →
            severity e ≠ "" ∧ e_type e ≠ "")
  ∧ (∀ s h, JsMap.get s (hospitals st) = Some h → h_name h ≠ "").
Proof.
  induction 1 as [|st ev _ (IHd & IHe & IHh) _]; [by repeat split|].
  split; [|split].
  - intros l d.
    destruct (handle_heap_cases ev st)
      as [->|[(s0 & r0 & u0 & _ & ->)|(l0 & old & new & Hold & -> & Hid)]].
    + apply IHd.
    + intros [Hd|[_ Hd]]%lookup_app_Some; [by apply (IHd l)|].
      apply list_lookup_singleton_Some in Hd as [_ <-]. simpl.
      split; by apply or_string_nonempty.
    + destruct (decide (l0 = l)) as [->|Hne].
      * rewrite list_lookup_insert_eq by by eapply lookup_lt_Some.
        intros [= <-]. destruct Hid as (_ & _ & -> & ->). by apply (IHd l).
      * rewrite list_lookup_insert_ne by done. apply IHd.
  - intros i e. rewrite handle_emergencies.
    destruct ev as [s r u|s loc0|s j|s j|s r u n|s j|s r u|s r|s];
      try apply IHe.
    + destruct (accept_guard s j st) as [[[l d] e0]|] eqn:Hg; [|apply IHe].
      apply accept_guard_Some in Hg as (_ & He0 & _).
      destruct (decide (j = i)) as [->|Hne].
      * rewrite get_set_eq. intros [= <-]. simpl. by apply (IHe i).
      * rewrite get_set_ne by done. apply IHe.
    + destruct (decide (u = i)) as [->|Hne].
      * rewrite get_set_eq. intros [= <-]. simpl.
        split; by apply or_string_nonempty.
      * rewrite get_set_ne by done. apply IHe.
    + rewrite patient_cancel_emergencies.
      destruct (JsMap.get j (emergencies st)) as [e0|]; [|apply IHe].
      destruct (decide (patientSocketId e0 = s)); [|apply IHe].
      destruct (decide (j = i)) as [->|Hne]; [by rewrite get_delete_eq|].
      rewrite get_delete_ne by done. apply IHe.
  - intros s h Hget.
    destruct (handle_hospitals ev st s h Hget)
      as [[_ [data ->]]|(h0 & Hh0 & _ & ->)]; [|by apply (IHh s)].
    by apply or_string_nonempty.
Qed.

Lemma names_are_never_empty_witness :
  let st :=
    (run [ DriverRegister "d1"
             {| rd_name := Some ""; rd_vehicle := None;
                rd_location := None |} "u1";
           PatientSos "p1"
             {| sd_location := None; sd_severity := Some "";
                sd_type := None |} "e1" 1000 ]
       initial_state).1 in
  ∃ d e, heap st !! 0 = Some d ∧ d_name d ≠ ""
         ∧ JsMap.get "e1" (emergencies st) = Some e ∧ severity e ≠ "".
Proof.
  intros st.
  assert (reachable st) as Hst
    by (apply reachable_run; [constructor | reflexivity]).
  destruct (names_are_never_empty st Hst) as (Hd & He & _).
  do 2 eexists.
  split; [reflexivity|]. split; [by eapply (Hd 0)|].
  split; [reflexivity|]. by eapply (He "e1").
Defined.

(** ** The status dashboard *)

Section js_map_nodup.
Context {K V : Type} `{EqDecision K}.
Implicit Types (k : K) (v : V) (m : list (K * V)).

Lemma NoDup_keys_set k v m : NoDup (keys m) → NoDup (keys (JsMap.set k v m)).
Proof.
  induction m as [|[k' v'] m IH]; simpl.
  - intros _. apply NoDup_singleton.
  - intros [Hk' Hm]%NoDup_cons.
    destruct (decide (k' = k)) as [->|Hne]; simpl.
    + by apply NoDup_cons.
    + apply NoDup_cons. split; [|by apply IH].
      intros [?|?]%keys_set; [congruence | done].
Qed.

Lemma NoDup_keys_delete k m :
  NoDup (keys m) → NoDup (keys (JsMap.delete k m)).
Proof.
  induction m as [|[k' v'] m IH]; simpl; [done|].
  intros [Hk' Hm]%NoDup_cons.
  destruct (decide (k' = k)) as [->|Hne]; simpl; [by apply IH|].
  apply NoDup_cons. split; [|by apply IH].
  by intros [_ ?]%keys_delete.
Qed.

Lemma elem_get k v m : NoDup (keys m) → (k, v) ∈ m → JsMap.get k m = Some v.
Proof.
  induction m as [|[k' v'] m IH]; simpl; [by intros _ ?%elem_of_nil|].
  intros [Hk' Hm]%NoDup_cons [[= -> ->]|Hin]%elem_of_cons.
  - by rewrite decide_True.
  - destruct (decide (k' = k)) as [->|Hne]; [|by apply IH].
    destruct Hk'. by apply (elem_keys _ v).
Qed.
End js_map_nodup.

(** The registry after an event. *)
Lemma handle_drivers ev st :
  drivers (handle ev st).1
  = match ev with
    | DriverRegister socket _ _ =>
        JsMap.set socket (length (heap st)) (drivers st)
    | Disconnect socket => JsMap.delete socket (drivers st)
    | _ => drivers st
    end.
Proof.
  destruct ev as [s d u|s loc0|s i|s i|s d u n|s i|s d u|s d|s];
    cbn [handle]; try done.
  - unfold driver_update_location. by destruct (driver_of st s) as [[??]|].
  - unfold driver_accept.
    by destruct (accept_guard s i st) as [[[??]?]|].
  - unfold driver_reject. by destruct (JsMap.get i (emergencies st)).
  - cancel_cases st s i e Hget Hown.
    by destruct (release_driver_frame i e st) as (-> & _ & _).
  - unfold hospital_update_beds. by destruct (JsMap.get s (hospitals st)).
  - apply disconnect_drivers.
Qed.

(** The [Map]s hold one entry per key. *)
Lemma reachable_NoDup st :
  reachable st →
  NoDup (keys (drivers st)) ∧ NoDup (keys (emergencies st)).
Proof.
  induction 1 as [|st ev _ [IHd IHe] _]; [split; apply NoDup_nil_2|].
  split.
  - rewrite handle_drivers.
    destruct ev; try done;
      [by apply NoDup_keys_set | by apply NoDup_keys_delete].
  - rewrite handle_emergencies.
    destruct ev as [s d u|s loc0|s j|s j|s d u n|s j|s d u|s d|s];
      try done.
    + destruct (accept_guard s j st) as [[[??]?]|]; [|done].
      by apply NoDup_keys_set.
    + by apply NoDup_keys_set.
    + rewrite patient_cancel_emergencies.
      destruct (JsMap.get j (emergencies st)) as [e0|]; [|done].
      destruct (decide (patientSocketId e0 = s)); [|done].
      by apply NoDup_keys_delete.
Qed.

Lemma driver_values_elem h ds d :
  d ∈ driver_values h ds ↔ ∃ s l, (s, l) ∈ ds ∧ h !! l = Some d.
Proof.
  induction ds as [|[s0 l0] ds IH]; simpl.
  - split; [by intros ?%elem_of_nil | by intros (? & ? & ?%elem_of_nil & _)].
  - destruct (h !! l0) as [d0|] eqn:Hd0.
    + rewrite elem_of_cons, IH. split.
      * intros [->|(s & l & Hin & Hd)].
        -- exists s0, l0. split; [apply list_elem_of_here | done].
        -- exists s, l. split; [by apply list_elem_of_further | done].
      * intros (s & l & [[= -> ->]|Hin]%elem_of_cons & Hd).
        -- left. congruence.
        -- right. by exists s, l.
    + rewrite IH. split.
      * intros (s & l & Hin & Hd). exists s, l.
        split; [by apply list_elem_of_further | done].
      * intros (s & l & [[= -> ->]|Hin]%elem_of_cons & Hd); [congruence|].
        by exists s, l.
Qed.

Lemma driver_values_length h ds :
  (∀ s l, (s, l) ∈ ds → is_Some (h !! l)) →
  length (driver_values h ds) = length ds.
Proof.
  induction ds as [|[s0 l0] ds IH]; intros Hall; [done|]. simpl.
  destruct (Hall s0 l0) as [d0 ->]; [apply list_elem_of_here|].
  simpl. rewrite IH; [done|].
  intros s l Hin. apply (Hall s l). by apply list_elem_of_further.
Qed.

(** X16.  In every reachable state the [/status] dashboard is consistent
    with itself: it lists one driver row per socket of the registry, the
    ids of its emergency rows are pairwise different, no emergency row is
    ['cancelled'], and it shows a [busy] driver only together with an
    ['accepted'] emergency. *)
Theorem status_report_is_consistent (st : State) :
  reachable st →
  let report := status_report st in
  length (report_drivers report) = length (drivers st)
  ∧ NoDup (row_id <$> report_emergencies report)
  ∧ (∀ row, row ∈ report_emergencies report →
            row_e_status row ≠ Cancelled)
  ∧ ((∃ row, row ∈ report_drivers report ∧ row_status row = Busy) →
     ∃ row, row ∈ report_emergencies report ∧ row_e_status row = Accepted).
Proof.
  intros Hst report. subst report. unfold status_report; simpl.
  destruct (reachable_NoDup st Hst) as [Hnd Hne].
  split; [|split; [|split]].
  - rewrite length_map. apply driver_values_length.
    intros s l Hin. apply (elem_get _ _ _ Hnd) in Hin.
    destruct (reachable_wf st Hst _ _ Hin) as (d & -> & _). by eexists.
  - assert (row_id <$> map (λ e : string * Emergency,
              {| row_id := e_id e.2; row_e_status := e_status e.2;
                 row_severity := severity e.2 |}) (emergencies st)
            = keys (emergencies st)) as ->; [|done].
    unfold keys. rewrite <- list_fmap_compose.
    apply Forall_fmap_ext_1, Forall_forall. intros [i e] Hin. simpl.
    apply (elem_get _ _ _ Hne) in Hin.
    by destruct (reachable_request_ok st Hst i e Hin).
  - intros row ([i e] & -> & Hin)%list_elem_of_fmap_1. simpl.
    apply (elem_get _ _ _ Hne) in Hin.
    by apply (ledger_not_cancelled st Hst i).
  - intros (row & (d & -> & Hd)%list_elem_of_fmap_1 & Hbusy).
    simpl in Hbusy.
    apply driver_values_elem in Hd as (s & l & Hin & Hd).
    apply (elem_get _ _ _ Hnd) in Hin.
    destruct (reachable_busy_is_assigned st Hst s l _ Hin Hd Hbusy)
      as (i & e & He & Hacc & _).
    exists {| row_id := e_id e; row_e_status := e_status e;
              row_severity := severity e |}.
    split; [|exact Hacc].
    apply (list_elem_of_fmap_2 (λ e : string * Emergency,
             {| row_id := e_id e.2; row_e_status := e_status e.2;
                row_severity := severity e.2 |}) _ (i, e)).
    by apply get_Some_elem.
Qed.

Lemma status_report_is_consistent_witness :
  let report := status_report (run one_accept initial_state).1 in
  ∃ row, row ∈ report_emergencies report ∧ row_e_status row = Accepted.
Proof.
  intros report.
  assert (reachable (run one_accept initial_state).1) as Hst
    by (apply reachable_run; [constructor | reflexivity]).
  destruct (status_report_is_consistent _ Hst) as (_ & _ & _ & Hbusy).
  apply Hbusy. eexists. split; [apply list_elem_of_here | reflexivity].
Defined.

(** ** The patient profile *)

Section profile.
Import Profile.

Lemma truthy_js_and a b : truthy (js_and a b) = truthy a && truthy b.
Proof. unfold js_and. by destruct (truthy a) eqn:Ha; simpl. Qed.

Lemma js_and_truthy a b : truthy (js_and a b) = true → js_and a b = b.
Proof.
  rewrite truthy_js_and. intros [Ha _]%andb_true_iff.
  unfold js_and. by rewrite Ha.
Qed.

Lemma truthy_of_string o : truthy (of_string o) = true ↔ filled o.
Proof.
  unfold filled. destruct o as [s|]; simpl.
  - rewrite negb_true_iff, bool_decide_eq_false. split.
    + intros Hs. by exists s.
    + by intros (s' & [= <-] & Hs).
  - split; [done | by intros (? & ? & _)].
Qed.

Lemma truthy_length_ge_2 {A} (o : option (list A)) :
  truthy (length_ge_2 o) = true ↔ two_or_more o.
Proof.
  unfold two_or_more. destruct o as [l|]; simpl.
  - rewrite bool_decide_eq_true. split.
    + intros Hl. by exists l.
    + by intros (l' & [= <-] & Hl).
  - split; [done | by intros (? & ? & _)].
Qed.

Lemma truthy_of_number o :
  truthy (of_number o) = true ↔
  ∃ n, o = Some n ∧ is_zero n = false ∧ is_nan n = false.
Proof.
  destruct o as [n|]; simpl.
  - rewrite negb_true_iff, orb_false_iff. split.
    + intros [? ?]. by exists n.
    + by intros (n' & [= <-] & ? & ?).
  - split; [done | by intros (? & ? & _)].
Qed.

Lemma truthy_consent_accepted o :
  truthy (consent_accepted o) = true ↔
  ∃ c, o = Some c ∧ consentAccepted c = true.
Proof.
  destruct o as [c|]; simpl.
  - split; [intros Hc; by exists c | by intros (c' & [= <-] & ?)].
  - split; [done | by intros (? & ? & _)].
Qed.

Lemma isComplete_truthy_iff p :
  truthy (isComplete p) = true ↔
  filled (fullName p)
  ∧ (∃ n, age p = Some n ∧ is_zero n = false ∧ is_nan n = false)
  ∧ filled (gender p) ∧ filled (address p) ∧ filled (bloodGroup p)
  ∧ filled (phoneNumber p) ∧ filled (email p)
  ∧ two_or_more (emergencyContacts p)
  ∧ two_or_more (preferredHospitals p)
  ∧ (∃ c, consentSettings p = Some c ∧ consentAccepted c = true).
Proof.
  unfold isComplete. rewrite !truthy_js_and, !andb_true_iff.
  rewrite !truthy_of_string, !truthy_length_ge_2, truthy_of_number,
    truthy_consent_accepted.
  tauto.
Qed.

(** X17.  [isComplete] is truthy exactly when every string field it reads
    is set and not empty, the age is a number other than [0] and [NaN],
    there are at least two emergency contacts and two preferred hospitals,
    and the consent is accepted; it then returns the boolean [true].  In
    particular a profile with age [0] is never complete. *)
Theorem isComplete_characterised (p : Profile.PatientProfile) :
  (truthy (isComplete p) = true ↔
   filled (fullName p)
   ∧ (∃ n, age p = Some n ∧ is_zero n = false ∧ is_nan n = false)
   ∧ filled (gender p) ∧ filled (address p) ∧ filled (bloodGroup p)
   ∧ filled (phoneNumber p) ∧ filled (email p)
   ∧ two_or_more (emergencyContacts p)
   ∧ two_or_more (preferredHospitals p)
   ∧ (∃ c, consentSettings p = Some c ∧ consentAccepted c = true))
  ∧ (truthy (isComplete p) = true → isComplete p = JsBool true)
  ∧ (age p = Some 0%float → truthy (isComplete p) = false).
Proof.
  split; [apply isComplete_truthy_iff|]. split.
  - intros Ht.
    pose proof Ht as (_ & _ & _ & _ & _ & _ & _ & _ & _ & c & Hc & Hacc)
      %isComplete_truthy_iff.
    unfold isComplete in *.
    rewrite (js_and_truthy _ _ Ht), Hc. simpl. by rewrite Hacc.
  - intros Hage. apply not_true_is_false.
    intros (_ & (n & Hn & Hz & _) & _)%isComplete_truthy_iff.
    rewrite Hage in Hn. injection Hn as <-. discriminate Hz.
Qed.

Lemma isComplete_characterised_witness :
  isComplete complete_profile = JsBool true
  ∧ truthy (isComplete
      {| fullName := Some "Baby Iyer"; age := Some 0%float;
         gender := gender complete_profile;
         address := address complete_profile;
         bloodGroup := bloodGroup complete_profile;
         phoneNumber := phoneNumber complete_profile;
         email := email complete_profile;
         emergencyContacts := emergencyContacts complete_profile;
         preferredHospitals := preferredHospitals complete_profile;
         consentSettings := consentSettings complete_profile |}) = false.
Proof.
  split.
  - apply (isComplete_characterised complete_profile). reflexivity.
  - apply isComplete_characterised. reflexivity.
Defined.

(** X18.  The validator of [emergencyContacts] is truthy exactly when the
    field is set and holds at least two contacts; on a field that is not
    set it returns [undefined].  Every profile that [isComplete] accepts
    passes the validator. *)
Theorem contacts_validator_characterised
    (contacts : option (list Profile.EmergencyContact)) :
  (truthy (contacts_validator contacts) = true ↔ two_or_more contacts)
  ∧ (contacts = None → contacts_validator contacts = JsUndefined)
  ∧ (∀ p, emergencyContacts p = contacts →
          truthy (isComplete p) = true →
          contacts_validator contacts = JsBool true).
Proof.
  assert (truthy (contacts_validator contacts) = true ↔ two_or_more contacts)
    as Hiff.
  { unfold contacts_validator.
    rewrite truthy_js_and, andb_true_iff, truthy_length_ge_2.
    split; [by intros [_ ?]|]. intros Htwo. split; [|done].
    destruct Htwo as (l & -> & _). done. }
  split; [done|]. split; [by intros ->|].
  intros p <- (_ & _ & _ & _ & _ & _ & _ & Htwo & _)%isComplete_truthy_iff.
  destruct Htwo as (l & Hl & Hlen). rewrite Hl.
  unfold contacts_validator, js_and; simpl.
  by rewrite bool_decide_eq_true_2.
Qed.

Lemma contacts_validator_characterised_witness :
  contacts_validator (emergencyContacts complete_profile) = JsBool true
  ∧ contacts_validator None = JsUndefined.
Proof.
  destruct (contacts_validator_characterised
              (emergencyContacts complete_profile)) as (_ & _ & Hcomplete).
  destruct (contacts_validator_characterised None) as (_ & Hnone & _).
  split; [|by apply Hnone].
  apply (Hcomplete complete_profile); reflexivity.
Defined.

End profile.

(** ** One offer per socket, none for a busy driver *)

Lemma offers_targets_sublist h emergency ds :
  (target <$> offers h emergency ds) `sublist_of` keys ds.
Proof.
  induction ds as [|[s0 l0] ds IH]; simpl; [apply sublist_nil|].
  destruct (h !! l0) as [d0|]; [|by apply sublist_cons].
  destruct (decide (d_status d0 = Available)); [|by apply sublist_cons].
  simpl. by apply sublist_skip.
Qed.

(** X19.  In every reachable state one broadcast writes to every socket at
    most once: no responder gets two offers of the same round. *)
Theorem broadcast_writes_once_per_socket (st : State)
    (emergency : Emergency) :
  reachable st →
  NoDup (target <$> broadcastToAvailableDrivers st emergency).
Proof.
  intros Hst. destruct (reachable_NoDup st Hst) as [Hnd _].
  unfold broadcastToAvailableDrivers.
  destruct (decide _) as [Hzero|_].
  - apply length_zero_iff_nil in Hzero. rewrite Hzero. simpl.
    apply NoDup_singleton.
  - eapply sublist_NoDup; [exact Hnd | apply offers_targets_sublist].
Qed.

Lemma broadcast_writes_once_per_socket_witness :
  let st := (run open_request_two_drivers initial_state).1 in
  NoDup (target <$> broadcastToAvailableDrivers st
           {| e_id := "e2"; patientSocketId := "p2";
              e_location := unknown_location; severity := "high";
              e_type := "accident"; e_status := Searching;
              timestamp := 2000; assignedDriver := None |}).
Proof.
  intros st.
  apply broadcast_writes_once_per_socket.
  apply reachable_run; [constructor | reflexivity].
Defined.

(** X20.  In every reachable state a responder whose registered driver
    object is [busy] gets no offer from a broadcast: after a committed
    accept, the following requests are not offered to the accepting
    socket until its driver is [available] again. *)
Theorem busy_driver_gets_no_offer (st : State) (socket : SocketId)
    (l : loc) (driver : Driver) (emergency : Emergency) (m : Emit) :
  reachable st →
  driver_of st socket = Some (l, driver) →
  d_status driver = Busy →
  m ∈ broadcastToAvailableDrivers st emergency →
  is_offer (payload m) = true →
  target m ≠ socket.
Proof.
  intros Hst [Hl Hd]%driver_of_Some Hbusy Hm Hoffer.
  destruct (reachable_NoDup st Hst) as [Hnd _].
  destruct (broadcast_inv _ _ _ Hm)
    as [(s & l' & d' & Hin & Hd' & Hav & ->)|[-> _]]; [|done].
  simpl. intros ->. apply (elem_get _ _ _ Hnd) in Hin.
  assert (l' = l) as -> by congruence.
  assert (d' = driver) as -> by congruence.
  congruence.
Qed.

Lemma busy_driver_gets_no_offer_witness :
  let st :=
    (run (open_request_two_drivers ++ [ DriverAccept "d1" "e1" ])
       initial_state).1 in
  ∃ m, m ∈ (driver_reject "d2" "e1" st).2
       ∧ is_offer (payload m) = true ∧ target m ≠ "d1".
Proof.
  intros st.
  assert (reachable st) as Hst
    by (apply reachable_run; [constructor | reflexivity]).
  assert (∃ d e, driver_of st "d1" = Some (0, d) ∧ d_status d = Busy
                 ∧ JsMap.get "e1" (emergencies st) = Some e
                 ∧ (driver_reject "d2" "e1" st).2
                   = broadcastToAvailableDrivers st e)
    as (d & e & Hd & Hbusy & He & Hout)
    by (do 2 eexists; repeat split; reflexivity).
  eexists. split; [apply list_elem_of_here|]. split; [reflexivity|].
  eapply (busy_driver_gets_no_offer st "d1" 0 d e _ Hst Hd Hbusy);
    [|reflexivity].
  rewrite <- Hout. apply list_elem_of_here.
Defined.
